(** * go-critic: the boolExprSimplify and dupSubExpr checkers

    A shallow embedding of [lint/boolExprSimplify_checker.go] (which also
    holds the dupSubExpr checker) and the properties of its two checkers.

    - Part 1 models the slice of [go/ast], [go/token] and [go/types] the
      checkers read, and [astequal.Expr] / [astutil.Unparen].
    - Part 2 is the dupSubExpr checker.
    - Part 3 is the boolExprSimplify checker read as functions on trees.
    - Part 4 is the boolExprSimplify checker as the Go code runs it: nodes
      are cells of a store, [astcopy.Expr] allocates, the rules write into
      the cells through the [astutil] cursor.
    - Part 5 is the traversal that calls the checker.
    - Part 6 is the vocabulary of the properties.
    - Part 7 has the measures of a tree and the meaning of expressions
      under an interpretation, to judge a suggestion by.
    - The lemmas and theorems follow; the store-level checker is shown to
      compute what the tree-level functions compute. *)

From stdpp Require Import base decidable countable option list strings gmap.
From Stdlib Require Import ZArith Lia.

Open Scope Z_scope.
Open Scope string_scope.
Open Scope list_scope.

(* [set_solver] clears hypotheses by name; the names are not always there. *)
#[local] Set Warnings "-clear-no-such-hyp".

(* ===================================================================== *)
(** * Part 1: tokens, expressions, types                                  *)
(* ===================================================================== *)

(** [token.Token], restricted to the literal kinds and the operators an
    expression can carry.  Go declares it as [type Token int]. *)
Inductive Token : Set :=
| ILLEGAL
| INT | FLOAT | IMAG | CHAR | STRING
| ADD | SUB | MUL | QUO | REM
| AND | OR | XOR | SHL | SHR | AND_NOT
| LAND | LOR | ARROW
| EQL | LSS | GTR | NOT
| NEQ | LEQ | GEQ.

#[global] Instance Token_eq_dec : EqDecision Token.
Proof. solve_decision. Defined.

(** The integer value of each token in [go/token]'s [const] block. *)
Definition Token_code (t : Token) : nat :=
  match t with
  | ILLEGAL => 0
  | INT => 5 | FLOAT => 6 | IMAG => 7 | CHAR => 8 | STRING => 9
  | ADD => 12 | SUB => 13 | MUL => 14 | QUO => 15 | REM => 16
  | AND => 17 | OR => 18 | XOR => 19 | SHL => 20 | SHR => 21 | AND_NOT => 22
  | LAND => 34 | LOR => 35 | ARROW => 36
  | EQL => 39 | LSS => 40 | GTR => 41 | NOT => 43
  | NEQ => 44 | LEQ => 45 | GEQ => 46
  end%nat.

Definition Token_all : list Token :=
  [ILLEGAL; INT; FLOAT; IMAG; CHAR; STRING; ADD; SUB; MUL; QUO; REM;
   AND; OR; XOR; SHL; SHR; AND_NOT; LAND; LOR; ARROW;
   EQL; LSS; GTR; NOT; NEQ; LEQ; GEQ].

Definition Token_of_code (n : nat) : option Token :=
  find (fun t => bool_decide (Token_code t = n)) Token_all.

Lemma Token_of_code_code (t : Token) : Token_of_code (Token_code t) = Some t.
Proof. by destruct t. Qed.

#[global] Instance Token_countable : Countable Token :=
  inj_countable Token_code Token_of_code Token_of_code_code.

(** [ast.Expr].  The variants are the ones the two checkers tell apart
    ([BinaryExpr], [UnaryExpr], [BasicLit], [Ident], [IndexExpr],
    [SelectorExpr], [ParenExpr]) and two of the shapes they treat as
    "anything else": [CallExpr], which has a slice of children, and
    [StarExpr].  Positions are left out: neither [astequal] nor the
    checkers read them.  [SelectorExpr.Sel] is an [*ast.Ident]; it is kept
    as its name.  [CallExpr.Ellipsis], which tells [f(xs...)] from [f(xs)],
    is left out: a call fails [isSafe], and no rule looks into one. *)
Unset Elimination Schemes.
Inductive Expr : Type :=
| Ident (Name : string)
| BasicLit (Kind : Token) (Value : string)
| ParenExpr (X : Expr)
| SelectorExpr (X : Expr) (Sel : string)
| IndexExpr (X : Expr) (Index : Expr)
| CallExpr (Fun : Expr) (Args : list Expr)
| StarExpr (X : Expr)
| UnaryExpr (Op : Token) (X : Expr)
| BinaryExpr (X : Expr) (Op : Token) (Y : Expr).
Set Elimination Schemes.

(** [astutil.Unparen]: strips every enclosing [ParenExpr]. *)
Fixpoint Unparen (e : Expr) : Expr :=
  match e with
  | ParenExpr x => Unparen x
  | _ => e
  end.

(** [astequal]'s comparison of two slices of expressions: the same length
    and pairwise equal elements. *)
Section astExprSliceEq.

Variable eq : Expr -> Expr -> bool.

Fixpoint astExprSliceEq (xs ys : list Expr) {struct xs} : bool :=
  match xs, ys with
  | [], [] => true
  | u :: xs', v :: ys' => eq u v && astExprSliceEq xs' ys'
  | _, _ => false
  end.

End astExprSliceEq.

(** [astequal.Expr] (go-toolsmith/astequal): same dynamic type, the same
    operator / name / literal, and pairwise equal children.  A [ParenExpr]
    is a node like any other. *)
Fixpoint astequal_Expr (x y : Expr) {struct x} : bool :=
  match x, y with
  | Ident a, Ident b => bool_decide (a = b)
  | BasicLit k v, BasicLit k' v' => bool_decide (k = k') && bool_decide (v = v')
  | ParenExpr a, ParenExpr b => astequal_Expr a b
  | SelectorExpr a s, SelectorExpr b s' => astequal_Expr a b && bool_decide (s = s')
  | IndexExpr a i, IndexExpr b j => astequal_Expr a b && astequal_Expr i j
  | CallExpr f xs, CallExpr g ys =>
      astequal_Expr f g && astExprSliceEq astequal_Expr xs ys
  | StarExpr a, StarExpr b => astequal_Expr a b
  | UnaryExpr o a, UnaryExpr o' b => bool_decide (o = o') && astequal_Expr a b
  | BinaryExpr a o b, BinaryExpr a' o' b' =>
      bool_decide (o = o') && astequal_Expr a a' && astequal_Expr b b'
  | _, _ => false
  end.

(** [types.BasicInfo]: a set of flags, [1 << iota]. *)
Definition IsBoolean : Z := Z.shiftl 1 0.
Definition IsInteger : Z := Z.shiftl 1 1.
Definition IsUnsigned : Z := Z.shiftl 1 2.
Definition IsFloat : Z := Z.shiftl 1 3.
Definition IsComplex : Z := Z.shiftl 1 4.
Definition IsString : Z := Z.shiftl 1 5.
Definition IsUntyped : Z := Z.shiftl 1 6.

(** [types.Basic]: what [Info()] and [Name()] return. *)
Record Basic : Type := mkBasic { Info : Z; BasicName : string }.

(** [types.Type], the dynamic types [TypeOf] can hand back. *)
Inductive GoType : Type :=
| TBasic (b : Basic)
| TNamed (name : string) (underlying : GoType)
| TPointer (elem : GoType)
| TSlice (elem : GoType)
| TStruct.

Definition Typ_Int : Basic := mkBasic IsInteger "int".
Definition Typ_Float64 : Basic := mkBasic IsFloat "float64".
Definition Typ_UntypedFloat : Basic := mkBasic (Z.lor IsFloat IsUntyped) "untyped float".
Definition Typ_Complex128 : Basic := mkBasic IsComplex "complex128".

(** What [ctx.Warn(node, format, args...)] hands to the diagnostic sink. *)
Inductive WarnArg : Type :=
| ArgExpr (e : Expr)
| ArgToken (t : Token).

Record Warning : Type := mkWarning {
  warn_node : Expr;
  warn_format : string;
  warn_args : list WarnArg
}.

(* ===================================================================== *)
(** * Part 2: the dupSubExpr checker                                      *)
(* ===================================================================== *)

Module dupSubExpr.

(** [dupSubExprChecker]: the two operator sets.  A Go [map[token.Token]bool]
    read at a missing key gives [false]. *)
Record dupSubExprChecker : Type := mkChecker {
  opSet : gmap Token bool;
  floatOpsSet : gmap Token bool
}.

Definition map_get (m : gmap Token bool) (op : Token) : bool :=
  default false (m !! op).

(** The table of [Init]: the operator and whether float arguments require
    special care. *)
Definition ops : list (Token * bool) :=
  [ (LOR, false); (LAND, false); (OR, false); (AND, false); (XOR, false);
    (LSS, false); (GTR, false); (AND_NOT, false); (REM, false);
    (EQL, true); (NEQ, true); (LEQ, true); (GEQ, true); (QUO, true);
    (SUB, true) ].

(** [Init]: the loop over [ops] that fills both maps. *)
Definition Init : dupSubExprChecker :=
  fold_left
    (fun (c : dupSubExprChecker) (opInfo : Token * bool) =>
       mkChecker (<[opInfo.1 := true]> (opSet c))
                 (if opInfo.2 then <[opInfo.1 := true]> (floatOpsSet c)
                  else floatOpsSet c))
    ops (mkChecker ∅ ∅).

(** [isSafe]: the whitelist switch over the node type. *)
Fixpoint isSafe (expr : Expr) : bool :=
  match expr with
  | BinaryExpr x _ y => isSafe x && isSafe y
  | UnaryExpr op x => negb (bool_decide (op = ARROW)) && isSafe x
  | BasicLit _ _ | Ident _ => true
  | IndexExpr x index => isSafe x && isSafe index
  | SelectorExpr x _ => isSafe x
  | ParenExpr x => isSafe x
  | _ => false
  end.

Section Checker.

(** [c.ctx.typesInfo.TypeOf]: the type recorded for an expression, [None]
    for Go's nil when the expression is not found.  [checkBinaryExpr] asks
    it about one node only, [expr.X]. *)
Variable TypeOf : Expr -> option GoType.

Variable c : dupSubExprChecker.

(** [resultIsFloat]: the type assertion to [*types.Basic], then the flag. *)
Definition resultIsFloat (expr : Expr) : bool :=
  match TypeOf expr with
  | Some (TBasic typ) => negb (Z.eqb (Z.land (Info typ) IsFloat) 0)
  | _ => false
  end.

Definition warn (x : Expr) (op : Token) (y : Expr) : list Warning :=
  [ mkWarning (BinaryExpr x op y)
      "suspicious identical LHS and RHS for `%s` operator" [ArgToken op] ].

(** [checkBinaryExpr], on the fields of its [*ast.BinaryExpr]; the result
    is what it sent to the sink. *)
Definition checkBinaryExpr (x : Expr) (op : Token) (y : Expr) : list Warning :=
  if negb (map_get (opSet c) op) then []
  else if resultIsFloat x && map_get (floatOpsSet c) op then []
  else if isSafe (BinaryExpr x op y) && map_get (opSet c) op && astequal_Expr x y
       then warn x op y
       else [].

Definition VisitExpr (expr : Expr) : list Warning :=
  match expr with
  | BinaryExpr x op y => checkBinaryExpr x op y
  | _ => []
  end.

End Checker.

End dupSubExpr.

(* ===================================================================== *)
(** * Part 3: the boolExprSimplify rules as functions on trees            *)
(* ===================================================================== *)

Module boolExprSimplify.

(** A rule of the checker looks at the cursor's node and either answers
    [false], or rewrites and answers [true].  Here a rule returns [None]
    for [false] and [Some n] for [true], [n] being the node that stands at
    the cursor's place afterwards.

    An [ast.Node] that may be nil is an [option Expr].  The sentinels
    [c.nilUnaryExpr] and [c.nilBinaryExpr] are [None] as well: they are
    empty nodes, so their [X] is nil. *)

(** [unaryNot]: the node itself when it is a [!], the sentinel otherwise. *)
Definition unaryNot (x : option Expr) : option Expr :=
  match x with
  | Some (UnaryExpr op _ as neg) => if bool_decide (op = NOT) then Some neg else None
  | _ => None
  end.

(** [binaryExpr]: the node itself when it is binary, the sentinel otherwise. *)
Definition binaryExpr (x : option Expr) : option Expr :=
  match x with
  | Some (BinaryExpr _ _ _ as binexp) => Some binexp
  | _ => None
  end.

(** [neg.X] of a [*ast.UnaryExpr]; nil on the sentinel. *)
Definition field_X (neg : option Expr) : option Expr :=
  match neg with
  | Some (UnaryExpr _ x) => Some x
  | _ => None
  end.

(** [astutil.Unparen] on a value that may be nil. *)
Definition Unparen_nil (e : option Expr) : option Expr := Unparen <$> e.

Definition doubleNegation (cur : Expr) : option Expr :=
  let neg1 := unaryNot (Some cur) in
  let neg2 := unaryNot (Unparen_nil (field_X neg1)) in
  match neg1, neg2 with
  | Some _, Some _ => Unparen_nil (field_X neg2)
  | _, _ => None
  end.

Definition negatedEquals (cur : Expr) : option Expr :=
  match cur with
  | BinaryExpr x op y =>
      if negb (bool_decide (op = EQL)) then None
      else
        let neg1 := unaryNot (Some x) in
        let neg2 := unaryNot (Some y) in
        match field_X neg1, field_X neg2 with
        | Some x1, Some x2 => Some (BinaryExpr x1 op x2)
        | _, _ => None
        end
  | _ => None
  end.

Definition invertComparison (cur : Expr) : option Expr :=
  let neg := unaryNot (Some cur) in
  let cmp := binaryExpr (Unparen_nil (field_X neg)) in
  match neg, cmp with
  | Some _, Some (BinaryExpr x op y) =>
      match op with
      | EQL => Some (BinaryExpr x NEQ y)
      | NEQ => Some (BinaryExpr x EQL y)
      | LSS => Some (BinaryExpr x GEQ y)
      | GTR => Some (BinaryExpr x LEQ y)
      | LEQ => Some (BinaryExpr x GTR y)
      | GEQ => Some (BinaryExpr x LSS y)
      | _ => None
      end
  | _, _ => None
  end.

(** The [post] closure of [simplifyBool]:
    [doubleNegation(cur) || negatedEquals(cur) || invertComparison(cur) || true].
    The result is the node at the cursor's place after the call. *)
Definition post (cur : Expr) : Expr :=
  match doubleNegation cur with
  | Some n => n
  | None =>
      match negatedEquals cur with
      | Some n => n
      | None =>
          match invertComparison cur with
          | Some n => n
          | None => cur
          end
      end
  end.

(** [astutil.Apply(x, nil, post)]: the children first, in field order, each
    child's place taking what [post] left there; then [post] on the node. *)
Fixpoint simplifyBool (x : Expr) : Expr :=
  post
    match x with
    | Ident _ | BasicLit _ _ => x
    | ParenExpr a => ParenExpr (simplifyBool a)
    | SelectorExpr a sel => SelectorExpr (simplifyBool a) sel
    | IndexExpr a i => IndexExpr (simplifyBool a) (simplifyBool i)
    | CallExpr f args => CallExpr (simplifyBool f) (map simplifyBool args)
    | StarExpr a => StarExpr (simplifyBool a)
    | UnaryExpr op a => UnaryExpr op (simplifyBool a)
    | BinaryExpr a op b => BinaryExpr (simplifyBool a) op (simplifyBool b)
    end.

End boolExprSimplify.

(* ===================================================================== *)
(** * Part 4: the boolExprSimplify checker on a store of nodes            *)
(* ===================================================================== *)

(** Go's nodes are heap objects, reached through pointers, and the rules
    write into them.  Here a pointer is an index into the store, [new]
    appends a cell, and a failed read (a pointer outside the store, a
    loop out of steps) makes the computation return [None]. *)

Module Mem.

Definition loc : Set := nat.

(** One node of [go/ast], its children held by pointer.  [CRoot] is the
    [struct{ ast.Node }] that [astutil.Apply] wraps the root in, so that
    the root can be replaced like any other child.  The slice of
    [CallExpr.Args] is kept inside the cell: each [CallExpr] owns its
    slice, and [astcopy] gives the copy a slice of its own.  The
    [*ast.Ident] of [SelectorExpr.Sel] is kept inside the cell as its name
    and is no cell of its own, so the store does not count the nodes that
    [astcopy] allocates. *)
Inductive cell : Type :=
| CIdent (Name : string)
| CBasicLit (Kind : Token) (Value : string)
| CParenExpr (X : loc)
| CSelectorExpr (X : loc) (Sel : string)
| CIndexExpr (X : loc) (Index : loc)
| CCallExpr (Fun : loc) (Args : list loc)
| CStarExpr (X : loc)
| CUnaryExpr (Op : Token) (X : loc)
| CBinaryExpr (X : loc) (Op : Token) (Y : loc)
| CRoot (Node : loc).

(** A computation over the store that may fail. *)
Definition M (A : Type) : Type := list cell -> option (A * list cell).

Definition ret {A : Type} (a : A) : M A := fun h => Some (a, h).

Definition bind {A B : Type} (m : M A) (k : A -> M B) : M B :=
  fun h => match m h with
           | Some (a, h') => k a h'
           | None => None
           end.

Definition fail {A : Type} : M A := fun _ => None.

Declare Scope mem_scope.
Delimit Scope mem_scope with mem.
Notation "'let*' x ':=' m 'in' k" := (bind m (fun x => k))
  (at level 10, x name, m at level 100, k at level 200) : mem_scope.
Notation "m ';;' k" := (bind m (fun _ => k))
  (at level 100, k at level 200, right associativity) : mem_scope.
Open Scope mem_scope.

(** [*p]. *)
Definition load (l : loc) : M cell :=
  fun h => match h !! l with
           | Some c => Some (c, h)
           | None => None
           end.

(** [*p = c]. *)
Definition store_cell (l : loc) (c : cell) : M unit :=
  fun h => if decide (l < length h)%nat then Some (tt, <[l := c]> h) else None.

(** [p := new(T); *p = c]. *)
Definition alloc (c : cell) : M loc :=
  fun h => Some (length h, h ++ [c]).

(** The number of cells, which bounds every chain of distinct nodes. *)
Definition cells : M nat := fun h => Some (length h, h).

(** The fields of a node that hold a child. *)
Inductive field : Set :=
| FNode
| FX
| FY
| FIndex
| FFun
| FArgs (i : nat).

Definition get_field (c : cell) (f : field) : option loc :=
  match f, c with
  | FNode, CRoot n => Some n
  | FX, CParenExpr x => Some x
  | FX, CSelectorExpr x _ => Some x
  | FX, CIndexExpr x _ => Some x
  | FIndex, CIndexExpr _ i => Some i
  | FFun, CCallExpr f _ => Some f
  | FArgs i, CCallExpr _ args => args !! i
  | FX, CStarExpr x => Some x
  | FX, CUnaryExpr _ x => Some x
  | FX, CBinaryExpr x _ _ => Some x
  | FY, CBinaryExpr _ _ y => Some y
  | _, _ => None
  end.

Definition set_field (c : cell) (f : field) (n : loc) : option cell :=
  match f, c with
  | FNode, CRoot _ => Some (CRoot n)
  | FX, CParenExpr _ => Some (CParenExpr n)
  | FX, CSelectorExpr _ sel => Some (CSelectorExpr n sel)
  | FX, CIndexExpr _ i => Some (CIndexExpr n i)
  | FIndex, CIndexExpr x _ => Some (CIndexExpr x n)
  | FFun, CCallExpr _ args => Some (CCallExpr n args)
  | FArgs i, CCallExpr f args =>
      if decide (i < length args)%nat then Some (CCallExpr f (<[i := n]> args)) else None
  | FX, CStarExpr _ => Some (CStarExpr n)
  | FX, CUnaryExpr op _ => Some (CUnaryExpr op n)
  | FX, CBinaryExpr _ op y => Some (CBinaryExpr n op y)
  | FY, CBinaryExpr x op _ => Some (CBinaryExpr x op n)
  | _, _ => None
  end.

Definition of_option {A : Type} (o : option A) : M A :=
  match o with
  | Some a => ret a
  | None => fail
  end.

(** [p.f]. *)
Definition read (p : loc) (f : field) : M loc :=
  let* c := load p in of_option (get_field c f).

(** [p.f = n]. *)
Definition assign (p : loc) (f : field) (n : loc) : M unit :=
  let* c := load p in
  let* c' := of_option (set_field c f n) in
  store_cell p c'.

(** [cmp.Op = op], on a [*ast.BinaryExpr]. *)
Definition assign_Op (p : loc) (op : Token) : M unit :=
  let* c := load p in
  match c with
  | CBinaryExpr x _ y => store_cell p (CBinaryExpr x op y)
  | _ => fail
  end.

(** [astutil.Cursor]: the node, and the field of the parent that holds it. *)
Record Cursor : Set := mkCursor {
  cur_parent : loc;
  cur_name : field;
  cur_node : loc
}.

(** [cur.Replace(n)]: sets the parent's field. *)
Definition Replace (cur : Cursor) (n : loc) : M unit :=
  assign (cur_parent cur) (cur_name cur) n.

(** [astutil.Unparen]: its loop, which follows [X] as long as the node is
    an [ast.ParenExpr], run for at most as many steps as the store has
    cells. *)
Fixpoint Unparen_loop (steps : nat) (e : loc) : M loc :=
  match steps with
  | O => fail
  | S steps' =>
      let* c := load e in
      match c with
      | CParenExpr x => Unparen_loop steps' x
      | _ => ret e
      end
  end.

Definition Unparen (e : option loc) : M (option loc) :=
  match e with
  | None => ret None
  | Some l => let* n := cells in let* r := Unparen_loop n l in ret (Some r)
  end.

(** [unaryNot]: [Some] of the node when it is a [!], [None] (the sentinel
    [c.nilUnaryExpr]) otherwise, also for nil. *)
Definition unaryNot (x : option loc) : M (option loc) :=
  match x with
  | None => ret None
  | Some l =>
      let* c := load l in
      match c with
      | CUnaryExpr op _ => if bool_decide (op = NOT) then ret (Some l) else ret None
      | _ => ret None
      end
  end.

(** [binaryExpr]: [Some] of the node when it is binary, [None] (the
    sentinel [c.nilBinaryExpr]) otherwise. *)
Definition binaryExpr (x : option loc) : M (option loc) :=
  match x with
  | None => ret None
  | Some l =>
      let* c := load l in
      match c with
      | CBinaryExpr _ _ _ => ret (Some l)
      | _ => ret None
      end
  end.

(** [neg.X]; the sentinel's [X] is nil. *)
Definition field_X (neg : option loc) : M (option loc) :=
  match neg with
  | None => ret None
  | Some l => let* x := read l FX in ret (Some x)
  end.

Definition doubleNegation (cur : Cursor) : M bool :=
  let* neg1 := unaryNot (Some (cur_node cur)) in
  let* x1 := field_X neg1 in
  let* u1 := Unparen x1 in
  let* neg2 := unaryNot u1 in
  match neg1, neg2 with
  | Some _, Some _ =>
      let* x2 := field_X neg2 in
      let* u2 := Unparen x2 in
      let* n := of_option u2 in
      Replace cur n;; ret true
  | _, _ => ret false
  end.

Definition negatedEquals (cur : Cursor) : M bool :=
  let* c := load (cur_node cur) in
  match c with
  | CBinaryExpr x op y =>
      if negb (bool_decide (op = EQL)) then ret false
      else
        let* neg1 := unaryNot (Some x) in
        let* neg2 := unaryNot (Some y) in
        match neg1, neg2 with
        | Some n1, Some n2 =>
            let* x1 := read n1 FX in
            assign (cur_node cur) FX x1;;
            let* x2 := read n2 FX in
            assign (cur_node cur) FY x2;;
            ret true
        | _, _ => ret false
        end
  | _ => ret false
  end.

Definition invertComparison (cur : Cursor) : M bool :=
  let* neg := unaryNot (Some (cur_node cur)) in
  let* x := field_X neg in
  let* u := Unparen x in
  let* cmp := binaryExpr u in
  match neg, cmp with
  | Some _, Some b =>
      let* c := load b in
      match c with
      | CBinaryExpr _ EQL _ => assign_Op b NEQ;; Replace cur b;; ret true
      | CBinaryExpr _ NEQ _ => assign_Op b EQL;; Replace cur b;; ret true
      | CBinaryExpr _ LSS _ => assign_Op b GEQ;; Replace cur b;; ret true
      | CBinaryExpr _ GTR _ => assign_Op b LEQ;; Replace cur b;; ret true
      | CBinaryExpr _ LEQ _ => assign_Op b GTR;; Replace cur b;; ret true
      | CBinaryExpr _ GEQ _ => assign_Op b LSS;; Replace cur b;; ret true
      | _ => ret false
      end
  | _, _ => ret false
  end.

(** The closure handed to [astutil.Apply] as [post]. *)
Definition post (cur : Cursor) : M bool :=
  let* b1 := doubleNegation cur in
  if b1 then ret true
  else
    let* b2 := negatedEquals cur in
    if b2 then ret true
    else
      let* b3 := invertComparison cur in
      if b3 then ret true else ret true.

(** [application.applyList]: walks the slice by index, handing the field
    [Args[index]] to [apply].  The callback never inserts or deletes, so
    the length of the slice stays what it was at entry: [todo] counts the
    elements left. *)
Fixpoint applyList (child : field -> M unit) (todo : nat) (index : nat) : M unit :=
  match todo with
  | O => ret tt
  | S todo' => child (FArgs index);; applyList child todo' (S index)
  end.

(** [application.apply] with a nil [pre]: the children in field order,
    each read from the node when its turn comes, then [post]; a [false]
    from [post] aborts. *)
Fixpoint apply (fuel : nat) (parent : loc) (name : field) (n : loc) : M unit :=
  match fuel with
  | O => fail
  | S fuel' =>
      let child (f : field) : M unit :=
        let* x := read n f in apply fuel' n f x in
      let* c := load n in
      match c with
      | CIdent _ | CBasicLit _ _ => ret tt
      | CParenExpr _ => child FX
      | CSelectorExpr _ _ => child FX
      | CIndexExpr _ _ => child FX;; child FIndex
      | CCallExpr _ args => child FFun;; applyList child (length args) 0%nat
      | CStarExpr _ => child FX
      | CUnaryExpr _ _ => child FX
      | CBinaryExpr _ _ _ => child FX;; child FY
      | CRoot _ => fail
      end;;
      let* ok := post (mkCursor parent name n) in
      if ok then ret tt else fail
  end.

(** [astutil.Apply(root, nil, post)]. *)
Definition Apply (root : loc) : M loc :=
  let* parent := alloc (CRoot root) in
  let* fuel := cells in
  apply fuel parent FNode root;;
  read parent FNode.

Definition simplifyBool (x : loc) : M loc := Apply x.

(** [astcopy.ExprList]: a new slice, each element a copy. *)
Fixpoint ExprList (copy : loc -> M loc) (xs : list loc) : M (list loc) :=
  match xs with
  | [] => ret []
  | a :: xs' =>
      let* a' := copy a in
      let* xs'' := ExprList copy xs' in
      ret (a' :: xs'')
  end.

(** [astcopy.Expr] (go-toolsmith/astcopy): [cp := *x], then every child
    field of [cp] is set to a copy of the child. *)
Fixpoint copyExpr (fuel : nat) (x : loc) : M loc :=
  match fuel with
  | O => fail
  | S fuel' =>
      let* c := load x in
      let* cp := alloc c in
      match c with
      | CIdent _ | CBasicLit _ _ => ret tt
      | CParenExpr a => let* a' := copyExpr fuel' a in store_cell cp (CParenExpr a')
      | CSelectorExpr a sel =>
          let* a' := copyExpr fuel' a in store_cell cp (CSelectorExpr a' sel)
      | CIndexExpr a i =>
          let* a' := copyExpr fuel' a in
          let* i' := copyExpr fuel' i in
          store_cell cp (CIndexExpr a' i')
      | CCallExpr f args =>
          let* f' := copyExpr fuel' f in
          let* args' := ExprList (copyExpr fuel') args in
          store_cell cp (CCallExpr f' args')
      | CStarExpr a => let* a' := copyExpr fuel' a in store_cell cp (CStarExpr a')
      | CUnaryExpr op a => let* a' := copyExpr fuel' a in store_cell cp (CUnaryExpr op a')
      | CBinaryExpr a op b =>
          let* a' := copyExpr fuel' a in
          let* b' := copyExpr fuel' b in
          store_cell cp (CBinaryExpr a' op b')
      | CRoot _ => fail
      end;;
      ret cp
  end.

Definition astcopy_Expr (x : loc) : M loc :=
  let* fuel := cells in copyExpr fuel x.

(** [astequal]'s comparison of two slices: the same length and pairwise
    equal elements. *)
Fixpoint astExprSliceEq (eq : loc -> loc -> option bool) (xs ys : list loc)
  : option bool :=
  match xs, ys with
  | [], [] => Some true
  | u :: xs', v :: ys' =>
      q1 ← eq u v;
      q2 ← astExprSliceEq eq xs' ys';
      Some (q1 && q2)
  | _, _ => Some false
  end.

(** [astequal.Expr] on two nodes of the store; it only reads. *)
Fixpoint astExprEq (fuel : nat) (h : list cell) (x y : loc) : option bool :=
  match fuel with
  | O => None
  | S fuel' =>
      cx ← h !! x;
      cy ← h !! y;
      match cx, cy with
      | CIdent a, CIdent b => Some (bool_decide (a = b))
      | CBasicLit k v, CBasicLit k' v' => Some (bool_decide (k = k') && bool_decide (v = v'))
      | CParenExpr a, CParenExpr b => astExprEq fuel' h a b
      | CSelectorExpr a s, CSelectorExpr b s' =>
          r ← astExprEq fuel' h a b; Some (r && bool_decide (s = s'))
      | CIndexExpr a i, CIndexExpr b j =>
          r1 ← astExprEq fuel' h a b;
          r2 ← astExprEq fuel' h i j;
          Some (r1 && r2)
      | CCallExpr f xs, CCallExpr g ys =>
          r1 ← astExprEq fuel' h f g;
          r2 ← astExprSliceEq (astExprEq fuel' h) xs ys;
          Some (r1 && r2)
      | CStarExpr a, CStarExpr b => astExprEq fuel' h a b
      | CUnaryExpr o a, CUnaryExpr o' b =>
          r ← astExprEq fuel' h a b; Some (bool_decide (o = o') && r)
      | CBinaryExpr a o b, CBinaryExpr a' o' b' =>
          r1 ← astExprEq fuel' h a a';
          r2 ← astExprEq fuel' h b b';
          Some (bool_decide (o = o') && r1 && r2)
      | CRoot _, _ | _, CRoot _ => None
      | _, _ => Some false
      end
  end.

Definition astequal_Expr (x y : loc) : M bool :=
  fun h => match astExprEq (length h) h x y with
           | Some b => Some (b, h)
           | None => None
           end.

(** What [ctx.Warn] receives: the node and the arguments are pointers. *)
Record Report : Set := mkReport {
  rep_node : loc;
  rep_format : string;
  rep_args : list loc
}.

(** [boolExprSimplifyChecker]: its [cause] field (nil until the first
    warning), next to the reports sent so far. *)
Record boolExprSimplifyChecker : Set := mkChecker {
  cause : option loc;
  reports : list Report
}.

Definition Init : boolExprSimplifyChecker := mkChecker None [].

Definition EnterChilds (c : boolExprSimplifyChecker) (x : loc) : bool :=
  negb (bool_decide (cause c = Some x)).

Definition warn (c : boolExprSimplifyChecker) (cause suggestion : loc)
  : boolExprSimplifyChecker :=
  mkChecker (Some cause)
    (reports c ++ [mkReport cause "can simplify `%s` to `%s`" [cause; suggestion]]).

Definition VisitExpr (c : boolExprSimplifyChecker) (x : loc)
  : M boolExprSimplifyChecker :=
  let* x' := astcopy_Expr x in
  let* y := simplifyBool x' in
  let* same := astequal_Expr x y in
  if negb same then ret (warn c x y) else ret c.

End Mem.

(* ===================================================================== *)
(** * Part 5: the traversal that calls the checker                        *)
(* ===================================================================== *)

(** Modelled from the spec: the driver is not part of the checker's file.
    The spec has it walk the source tree, call the checker on every
    expression node, and ask [shouldDescendInto], the checker's
    [EnterChilds], before it descends. *)

Module Driver.

(** The expression children of a node, in source order. *)
Definition children (c : Mem.cell) : list Mem.loc :=
  match c with
  | Mem.CIdent _ | Mem.CBasicLit _ _ => []
  | Mem.CParenExpr x | Mem.CSelectorExpr x _ | Mem.CStarExpr x | Mem.CUnaryExpr _ x => [x]
  | Mem.CIndexExpr x y | Mem.CBinaryExpr x _ y => [x; y]
  | Mem.CCallExpr f args => f :: args
  | Mem.CRoot x => [x]
  end.

(** The walk over a list of children, the checker handed from one to the
    next. *)
Fixpoint walkList
    (walk : Mem.boolExprSimplifyChecker -> Mem.loc -> Mem.M Mem.boolExprSimplifyChecker)
    (c : Mem.boolExprSimplifyChecker) (ns : list Mem.loc)
  : Mem.M Mem.boolExprSimplifyChecker :=
  match ns with
  | [] => Mem.ret c
  | n :: ns' => Mem.bind (walk c n) (fun c1 => walkList walk c1 ns')
  end.

(** Modelled from the spec: per expression node the driver invokes the
    checker ([visitExpression]), then descends into the children of the
    node only when [shouldDescendInto] answers [true] for it. *)
Fixpoint walk (fuel : nat) (c : Mem.boolExprSimplifyChecker) (n : Mem.loc)
  : Mem.M Mem.boolExprSimplifyChecker :=
  match fuel with
  | O => Mem.fail
  | S fuel' =>
      Mem.bind (Mem.VisitExpr c n) (fun c1 =>
        if Mem.EnterChilds c1 n
        then Mem.bind (Mem.load n) (fun cell => walkList (walk fuel') c1 (children cell))
        else Mem.ret c1)
  end.

End Driver.

(* ===================================================================== *)
(** * Part 6: the vocabulary of the properties                            *)
(* ===================================================================== *)

(** The detection set of the Duplicate-Operand Detector, as the
    specification lists it: nine operators that are always flagged and six
    that are flagged unless the left operand is floating-point. *)
Definition always_flagged : list Token :=
  [LOR; LAND; OR; AND; XOR; LSS; GTR; AND_NOT; REM].

Definition float_sensitive : list Token :=
  [EQL; NEQ; LEQ; GEQ; QUO; SUB].

Definition detection_set : list Token := always_flagged ++ float_sensitive.

(** The specification's "static type is floating-point", in its words: a
    float type, be it a basic one or a defined type over one
    ([type Celsius float64]). *)
Fixpoint spec_floating_point (t : GoType) : bool :=
  match t with
  | TBasic b => negb (Z.eqb (Z.land (Info b) IsFloat) 0)
  | TNamed _ underlying => spec_floating_point underlying
  | _ => false
  end.

(** The specification's semantic equality: parentheses are transparent, so
    that [Paren{x}] and [x] compare equal. *)
Fixpoint strip_parens (e : Expr) : Expr :=
  match e with
  | Ident _ | BasicLit _ _ => e
  | ParenExpr x => strip_parens x
  | SelectorExpr x sel => SelectorExpr (strip_parens x) sel
  | IndexExpr x i => IndexExpr (strip_parens x) (strip_parens i)
  | CallExpr f args => CallExpr (strip_parens f) (map strip_parens args)
  | StarExpr x => StarExpr (strip_parens x)
  | UnaryExpr op x => UnaryExpr op (strip_parens x)
  | BinaryExpr x op y => BinaryExpr (strip_parens x) op (strip_parens y)
  end.

Definition paren_transparent_equal (x y : Expr) : bool :=
  astequal_Expr (strip_parens x) (strip_parens y).

(** The whitelist of the Safety Classifier, rule by rule. *)
Inductive safe_shape : Expr -> Prop :=
| safe_Literal k v : safe_shape (BasicLit k v)
| safe_Identifier s : safe_shape (Ident s)
| safe_Binary x op y : safe_shape x -> safe_shape y -> safe_shape (BinaryExpr x op y)
| safe_Unary op x : op <> ARROW -> safe_shape x -> safe_shape (UnaryExpr op x)
| safe_Index x i : safe_shape x -> safe_shape i -> safe_shape (IndexExpr x i)
| safe_Selector x sel : safe_shape x -> safe_shape (SelectorExpr x sel)
| safe_Paren x : safe_shape x -> safe_shape (ParenExpr x).

(** The table of the invert-comparison rule. *)
Definition inverted (op : Token) : option Token :=
  match op with
  | EQL => Some NEQ
  | NEQ => Some EQL
  | LSS => Some GEQ
  | GTR => Some LEQ
  | LEQ => Some GTR
  | GEQ => Some LSS
  | _ => None
  end.

(** [e] is a unary logical-not. *)
Definition is_not (e : Expr) : bool :=
  match e with
  | UnaryExpr NOT _ => true
  | _ => false
  end.

(** [e] is a binary node. *)
Definition is_binary (e : Expr) : bool :=
  match e with
  | BinaryExpr _ _ _ => true
  | _ => false
  end.

(** [n] pairs of parentheses around [e]. *)
Definition parens (n : nat) (e : Expr) : Expr := Nat.iter n ParenExpr e.

(** A rule answered [true]. *)
Definition fired (o : option Expr) : bool :=
  match o with
  | Some _ => true
  | None => false
  end.

(** No rule fires at [t] or anywhere below it. *)
Fixpoint rule_free (t : Expr) : bool :=
  negb (fired (boolExprSimplify.doubleNegation t)) &&
  negb (fired (boolExprSimplify.negatedEquals t)) &&
  negb (fired (boolExprSimplify.invertComparison t)) &&
  match t with
  | Ident _ | BasicLit _ _ => true
  | ParenExpr x | SelectorExpr x _ | StarExpr x | UnaryExpr _ x => rule_free x
  | IndexExpr x y | BinaryExpr x _ y => rule_free x && rule_free y
  | CallExpr f args => rule_free f && forallb rule_free args
  end.

(** The height of a tree: the depth of recursion a walk over it needs. *)
Fixpoint height (e : Expr) : nat :=
  match e with
  | Ident _ | BasicLit _ _ => 1
  | ParenExpr x | SelectorExpr x _ | StarExpr x | UnaryExpr _ x => S (height x)
  | IndexExpr x y | BinaryExpr x _ y => S (Nat.max (height x) (height y))
  | CallExpr f args => S (Nat.max (height f) (foldr (fun a => Nat.max (height a)) 0%nat args))
  end.

(** The children of an expression, in source order. *)
Definition subexprs (t : Expr) : list Expr :=
  match t with
  | Ident _ | BasicLit _ _ => []
  | ParenExpr x | SelectorExpr x _ | StarExpr x | UnaryExpr _ x => [x]
  | IndexExpr x y | BinaryExpr x _ y => [x; y]
  | CallExpr f args => f :: args
  end.

(** [tree_at h l t fp]: in the store [h] the node at [l] is the root of the
    tree [t], whose nodes are the cells [fp], each used once (a tree as a
    parser builds it: no node is shared). *)
Inductive tree_at (h : list Mem.cell) : Mem.loc -> Expr -> gset Mem.loc -> Prop :=
| tree_Ident l s :
    h !! l = Some (Mem.CIdent s) -> tree_at h l (Ident s) {[l]}
| tree_BasicLit l k v :
    h !! l = Some (Mem.CBasicLit k v) -> tree_at h l (BasicLit k v) {[l]}
| tree_Paren l a x fx :
    h !! l = Some (Mem.CParenExpr a) -> tree_at h a x fx -> l ∉ fx ->
    tree_at h l (ParenExpr x) ({[l]} ∪ fx)
| tree_Selector l a sel x fx :
    h !! l = Some (Mem.CSelectorExpr a sel) -> tree_at h a x fx -> l ∉ fx ->
    tree_at h l (SelectorExpr x sel) ({[l]} ∪ fx)
| tree_Index l a i x y fx fy :
    h !! l = Some (Mem.CIndexExpr a i) ->
    tree_at h a x fx -> tree_at h i y fy ->
    fx ## fy -> l ∉ fx ∪ fy ->
    tree_at h l (IndexExpr x y) ({[l]} ∪ (fx ∪ fy))
| tree_Call l f args tf targs ff fargs :
    h !! l = Some (Mem.CCallExpr f args) ->
    tree_at h f tf ff -> trees_at h args targs fargs ->
    ff ## fargs -> l ∉ ff ∪ fargs ->
    tree_at h l (CallExpr tf targs) ({[l]} ∪ (ff ∪ fargs))
| tree_Star l a x fx :
    h !! l = Some (Mem.CStarExpr a) -> tree_at h a x fx -> l ∉ fx ->
    tree_at h l (StarExpr x) ({[l]} ∪ fx)
| tree_Unary l op a x fx :
    h !! l = Some (Mem.CUnaryExpr op a) -> tree_at h a x fx -> l ∉ fx ->
    tree_at h l (UnaryExpr op x) ({[l]} ∪ fx)
| tree_Binary l a op b x y fx fy :
    h !! l = Some (Mem.CBinaryExpr a op b) ->
    tree_at h a x fx -> tree_at h b y fy ->
    fx ## fy -> l ∉ fx ∪ fy ->
    tree_at h l (BinaryExpr x op y) ({[l]} ∪ (fx ∪ fy))
with trees_at (h : list Mem.cell) : list Mem.loc -> list Expr -> gset Mem.loc -> Prop :=
| trees_nil : trees_at h [] [] ∅
| trees_cons l ls t ts f fs :
    tree_at h l t f -> trees_at h ls ts fs -> f ## fs ->
    trees_at h (l :: ls) (t :: ts) (f ∪ fs).

(** [h'] keeps every cell of [h] and may have more. *)
Definition extends (h h' : list Mem.cell) : Prop :=
  (length h <= length h')%nat /\ forall k, (k < length h)%nat -> h' !! k = h !! k.

(** [m] returns from [h], and its result and final store satisfy [Q]. *)
Definition wp {A : Type} (m : Mem.M A) (h : list Mem.cell)
    (Q : A -> list Mem.cell -> Prop) : Prop :=
  exists a h', m h = Some (a, h') /\ Q a h'.

Scheme tree_at_mut := Minimality for tree_at Sort Prop
  with trees_at_mut := Minimality for trees_at Sort Prop.
Combined Scheme tree_trees_ind from tree_at_mut, trees_at_mut.

Section StoreVocabulary.

Local Open Scope nat_scope.

(** [x'] is the root of a copy of [t] made of cells that [h] did not have. *)
Definition copied (h : list Mem.cell) (t : Expr) (x' : Mem.loc) (h' : list Mem.cell)
  : Prop :=
  extends h h' /\
  exists fp', tree_at h' x' t fp' /\ forall k, k ∈ fp' -> length h <= k.

Definition copied_list (h : list Mem.cell) (ts : list Expr) (xs' : list Mem.loc)
    (h' : list Mem.cell) : Prop :=
  extends h h' /\
  exists fp', trees_at h' xs' ts fp' /\ forall k, k ∈ fp' -> length h <= k.

(** The field [name] of [parent] holds [n]. *)
Definition slot (h : list Mem.cell) (parent : Mem.loc) (name : Mem.field)
    (n : Mem.loc) : Prop :=
  exists c, h !! parent = Some c /\ Mem.get_field c name = Some n.

(** From [h] to [h']: the field [name] of [parent] now holds the root of
    the tree [r], made of cells of [fp]; [parent] is otherwise as it was,
    and so is every cell outside [fp]. *)
Definition replaced (h : list Mem.cell) (parent : Mem.loc) (name : Mem.field)
    (fp : gset Mem.loc) (r : Expr) (h' : list Mem.cell) : Prop :=
  length h' = length h /\
  (forall k, k ∉ fp -> k <> parent -> h' !! k = h !! k) /\
  exists n' fp' c c',
    fp' ⊆ fp /\ tree_at h' n' r fp' /\
    h !! parent = Some c /\ Mem.set_field c name n' = Some c' /\
    h' !! parent = Some c'.

(** What a rule answers and leaves, next to its reading on trees. *)
Definition rule_result (h : list Mem.cell) (parent : Mem.loc) (name : Mem.field)
    (fp : gset Mem.loc) (o : option Expr) (b : bool) (h' : list Mem.cell) : Prop :=
  match o with
  | Some r => b = true /\ replaced h parent name fp r h'
  | None => b = false /\ h' = h
  end.

(** From [h] to [h']: the same cells, and only those of [fp] may differ. *)
Definition changed_within (h : list Mem.cell) (fp : gset Mem.loc)
    (h' : list Mem.cell) : Prop :=
  length h' = length h /\ forall k, k ∉ fp -> h' !! k = h !! k.

(** The walk from [n], in the field [name] of [parent], computes one
    pass: this is what the induction on the tree proves at every node. *)
Definition apply_ok (fuel : nat) (t : Expr) : Prop :=
  forall h n fp parent name,
    tree_at h n t fp -> height t <= fuel ->
    slot h parent name n -> parent ∉ fp ->
    wp (Mem.apply fuel parent name n) h
       (fun _ h' => replaced h parent name fp (boolExprSimplify.simplifyBool t) h').

(** What walking the child in field [f] of [n] leaves. *)
Definition child_done (h : list Mem.cell) (n : Mem.loc) (c : Mem.cell)
    (f : Mem.field) (fx : gset Mem.loc) (t : Expr) (h' : list Mem.cell) : Prop :=
  changed_within h ({[n]} ∪ fx) h' /\
  exists lx' fx' c',
    fx' ⊆ fx /\ tree_at h' lx' (boolExprSimplify.simplifyBool t) fx' /\
    Mem.set_field c f lx' = Some c' /\ h' !! n = Some c'.

(** What one call of [VisitExpr] on the tree [t] at [x] leaves: the old
    cells as they were, the simplified copy [y] in new cells, and the
    checker warned when the two trees differ. *)
Definition visited (c : Mem.boolExprSimplifyChecker) (x : Mem.loc) (t : Expr)
    (h : list Mem.cell) (c' : Mem.boolExprSimplifyChecker) (h' : list Mem.cell)
  : Prop :=
  extends h h' /\
  exists y fy,
    tree_at h' y (boolExprSimplify.simplifyBool t) fy /\
    (forall k, k ∈ fy -> length h <= k) /\
    c' = if astequal_Expr t (boolExprSimplify.simplifyBool t) then c
         else Mem.warn c x y.

(** What a walk over a tree of footprint [fp] leaves: the old cells as
    they were, and new reports, each for a node of the tree, no node
    reported twice. *)
Definition walked (c : Mem.boolExprSimplifyChecker) (fp : gset Mem.loc)
    (h : list Mem.cell) (c' : Mem.boolExprSimplifyChecker) (h' : list Mem.cell)
  : Prop :=
  extends h h' /\
  exists new,
    Mem.reports c' = Mem.reports c ++ new /\
    NoDup (Mem.rep_node <$> new) /\
    forall r, r ∈ new -> Mem.rep_node r ∈ fp.

Definition walk_ok (fuel : nat) (t : Expr) : Prop :=
  forall c h x fp,
    tree_at h x t fp -> (height t <= fuel)%nat ->
    wp (Driver.walk fuel c x) h
       (fun c' h' =>
          walked c fp h c' h' /\
          (astequal_Expr t (boolExprSimplify.simplifyBool t) = false ->
           exists y, Mem.reports c' =
                     Mem.reports c ++ [Mem.mkReport x "can simplify `%s` to `%s`" [x; y]])).

End StoreVocabulary.

(** A store as a parser leaves it for [!(!a != !b)], root at [6]. *)
Definition example_store : list Mem.cell :=
  [ Mem.CIdent "a"; Mem.CUnaryExpr NOT 0; Mem.CIdent "b"; Mem.CUnaryExpr NOT 2;
    Mem.CBinaryExpr 1 NEQ 3; Mem.CParenExpr 4; Mem.CUnaryExpr NOT 5 ]%nat.

Definition example_tree : Expr :=
  UnaryExpr NOT
    (ParenExpr (BinaryExpr (UnaryExpr NOT (Ident "a")) NEQ (UnaryExpr NOT (Ident "b")))).

Definition example_footprint : gset Mem.loc :=
  ({[6]} ∪ ({[5]} ∪ ({[4]} ∪ (({[1]} ∪ {[0]}) ∪ ({[3]} ∪ {[2]})))))%nat.

(* ===================================================================== *)
(** * Part 7: measures of trees and the meaning of expressions            *)
(* ===================================================================== *)

(** The number of nodes of a tree. *)
Fixpoint nodes (e : Expr) : nat :=
  match e with
  | Ident _ | BasicLit _ _ => 1
  | ParenExpr x | SelectorExpr x _ | StarExpr x | UnaryExpr _ x => S (nodes x)
  | IndexExpr x y | BinaryExpr x _ y => S (nodes x + nodes y)
  | CallExpr f args => S (nodes f + foldr (fun a => Nat.add (nodes a)) 0%nat args)
  end.

(** The number of logical-not operators in a tree. *)
Fixpoint negations (e : Expr) : nat :=
  match e with
  | Ident _ | BasicLit _ _ => 0
  | ParenExpr x | SelectorExpr x _ | StarExpr x => negations x
  | UnaryExpr op x => (if bool_decide (op = NOT) then 1 else 0) + negations x
  | IndexExpr x y | BinaryExpr x _ y => negations x + negations y
  | CallExpr f args => negations f + foldr (fun a => Nat.add (negations a)) 0%nat args
  end.

(** The identifiers and literals of a tree, from left to right. *)
Fixpoint leaves (e : Expr) : list Expr :=
  match e with
  | Ident _ | BasicLit _ _ => [e]
  | ParenExpr x | SelectorExpr x _ | StarExpr x | UnaryExpr _ x => leaves x
  | IndexExpr x y | BinaryExpr x _ y => leaves x ++ leaves y
  | CallExpr f args => leaves f ++ concat (map leaves args)
  end.

(** Every node of a tree, the root first. *)
Fixpoint all_nodes (e : Expr) : list Expr :=
  e :: match e with
       | Ident _ | BasicLit _ _ => []
       | ParenExpr x | SelectorExpr x _ | StarExpr x | UnaryExpr _ x => all_nodes x
       | IndexExpr x y | BinaryExpr x _ y => all_nodes x ++ all_nodes y
       | CallExpr f args => all_nodes f ++ concat (map all_nodes args)
       end.

(** A node that, taken alone, the switch of [isSafe] lets through: not a
    call, not a dereference, not a channel receive. *)
Definition whitelisted (e : Expr) : bool :=
  match e with
  | CallExpr _ _ | StarExpr _ => false
  | UnaryExpr op _ => negb (bool_decide (op = ARROW))
  | _ => true
  end.

(** A chain [r1(cur) || r2(cur) || ... || true] of rules tried in the
    order [rules]: the node left by the first rule that fires, [cur] when
    none does.  [boolExprSimplify.post] is the chain in the order of the
    source. *)
Definition first_fired (rules : list (Expr -> option Expr)) (cur : Expr) : Expr :=
  default cur (foldr (fun rule rest => match rule cur with
                                       | Some n => Some n
                                       | None => rest
                                       end) None rules).

(** The subtree below the root of [example_tree], at [5] in
    [example_store]. *)
Definition example_operand : Expr :=
  ParenExpr (BinaryExpr (UnaryExpr NOT (Ident "a")) NEQ (UnaryExpr NOT (Ident "b"))).

Definition example_operand_footprint : gset Mem.loc :=
  ({[5]} ∪ ({[4]} ∪ (({[1]} ∪ {[0]}) ∪ ({[3]} ∪ {[2]}))))%nat.

(** The meaning of expressions, to judge a rewrite by.  Booleans are
    interpreted here: [!], [&&] and [||] act on them as Go defines, [&&]
    and [||] without looking at the right operand when the left one
    decides.  What identifiers, literals, selections, indexing, calls,
    dereferences and the other operators denote, and how the six
    comparison operators decide on two values, is left to an
    interpretation [I].  [None] is an expression without a value. *)
Module Meaning.

Inductive value (A : Type) : Type :=
| VBool (b : bool)
| VOther (a : A).

Arguments VBool {A} b.
Arguments VOther {A} a.

Record Interp (A : Type) : Type := mkInterp {
  ident : string -> option (value A);
  literal : Token -> string -> option (value A);
  selector : value A -> string -> option (value A);
  index : value A -> value A -> option (value A);
  call : value A -> list (value A) -> option (value A);
  star : value A -> option (value A);
  unary : Token -> value A -> option (value A);
  binary : Token -> value A -> value A -> option (value A);
  compare : Token -> value A -> value A -> option bool
}.

Arguments ident {A} i.
Arguments literal {A} i.
Arguments selector {A} i.
Arguments index {A} i.
Arguments call {A} i.
Arguments star {A} i.
Arguments unary {A} i.
Arguments binary {A} i.
Arguments compare {A} i.

Definition as_bool {A : Type} (v : value A) : option bool :=
  match v with
  | VBool b => Some b
  | VOther _ => None
  end.

Fixpoint eval {A : Type} (I : Interp A) (e : Expr) : option (value A) :=
  match e with
  | Ident s => ident I s
  | BasicLit k v => literal I k v
  | ParenExpr x => eval I x
  | SelectorExpr x sel => v ← eval I x; selector I v sel
  | IndexExpr x i => v ← eval I x; w ← eval I i; index I v w
  | CallExpr f args => v ← eval I f; ws ← mapM (eval I) args; call I v ws
  | StarExpr x => v ← eval I x; star I v
  | UnaryExpr op x =>
      v ← eval I x;
      if bool_decide (op = NOT) then VBool ∘ negb <$> as_bool v
      else unary I op v
  | BinaryExpr x op y =>
      match op with
      | LAND =>
          match eval I x with
          | Some (VBool true) => eval I y
          | Some (VBool false) => Some (VBool false)
          | _ => None
          end
      | LOR =>
          match eval I x with
          | Some (VBool true) => Some (VBool true)
          | Some (VBool false) => eval I y
          | _ => None
          end
      | _ =>
          v ← eval I x; w ← eval I y;
          match inverted op with
          | Some _ => VBool <$> compare I op v w
          | None => binary I op v w
          end
      end
  end.

(** The comparisons of [I] are those of a total order, and [==] on
    booleans is their equality: each of the six operators decides the
    opposite of the one [invertComparison] exchanges it with. *)
Definition total_order {A : Type} (I : Interp A) : Prop :=
  (forall op op' v w, inverted op = Some op' ->
                      compare I op' v w = negb <$> compare I op v w) /\
  (forall x y, compare I EQL (VBool x) (VBool y) = Some (eqb x y)).

(** Integers with their order and booleans with their equality; the
    identifiers are read in [env]. *)
Definition integers (env : string -> option (value Z)) : Interp Z :=
  {| ident := env;
     literal := fun _ _ => None;
     selector := fun _ _ => None;
     index := fun _ _ => None;
     call := fun _ _ => None;
     star := fun _ => None;
     unary := fun op v =>
       match op, v with
       | SUB, VOther z => Some (VOther (- z))
       | _, _ => None
       end;
     binary := fun op v w =>
       match op, v, w with
       | ADD, VOther a, VOther b => Some (VOther (a + b))
       | SUB, VOther a, VOther b => Some (VOther (a - b))
       | MUL, VOther a, VOther b => Some (VOther (a * b))
       | _, _, _ => None
       end;
     compare := fun op v w =>
       match v, w with
       | VOther a, VOther b =>
           match op with
           | EQL => Some (a =? b)%Z
           | NEQ => Some (negb (a =? b)%Z)
           | LSS => Some (a <? b)%Z
           | GTR => Some (a >? b)%Z
           | LEQ => Some (a <=? b)%Z
           | GEQ => Some (a >=? b)%Z
           | _ => None
           end
       | VBool a, VBool b =>
           match op with
           | EQL => Some (eqb a b)
           | NEQ => Some (negb (eqb a b))
           | _ => None
           end
       | _, _ => None
       end |}.

(** Values that are unordered with everything, as Go has it for a
    floating-point NaN: of the six comparisons only [!=] holds. *)
Definition unordered (env : string -> option (value unit)) : Interp unit :=
  {| ident := env;
     literal := fun _ _ => None;
     selector := fun _ _ => None;
     index := fun _ _ => None;
     call := fun _ _ => None;
     star := fun _ => None;
     unary := fun _ _ => None;
     binary := fun _ _ _ => None;
     compare := fun op v w =>
       match v, w with
       | VOther _, VOther _ => Some (bool_decide (op = NEQ))
       | _, _ => None
       end |}.

(** [elapsed] is 3 and [min] is 5. *)
Definition example_env (s : string) : option (value Z) :=
  if String.eqb s "elapsed" then Some (VOther 3%Z)
  else if String.eqb s "min" then Some (VOther 5%Z)
  else None.

(** Every identifier is a NaN. *)
Definition example_nan (s : string) : option (value unit) := Some (VOther tt).

End Meaning.

(* ===================================================================== *)
(** * Induction on expressions                                            *)
(* ===================================================================== *)

Section Expr_induction.

Variable P : Expr -> Prop.
Hypothesis HIdent : forall s, P (Ident s).
Hypothesis HBasicLit : forall k v, P (BasicLit k v).
Hypothesis HParen : forall x, P x -> P (ParenExpr x).
Hypothesis HSelector : forall x sel, P x -> P (SelectorExpr x sel).
Hypothesis HIndex : forall x i, P x -> P i -> P (IndexExpr x i).
Hypothesis HCall : forall f args, P f -> Forall P args -> P (CallExpr f args).
Hypothesis HStar : forall x, P x -> P (StarExpr x).
Hypothesis HUnary : forall op x, P x -> P (UnaryExpr op x).
Hypothesis HBinary : forall x op y, P x -> P y -> P (BinaryExpr x op y).

Fixpoint Expr_ind (e : Expr) : P e :=
  match e with
  | Ident s => HIdent s
  | BasicLit k v => HBasicLit k v
  | ParenExpr x => HParen x (Expr_ind x)
  | SelectorExpr x sel => HSelector x sel (Expr_ind x)
  | IndexExpr x i => HIndex x i (Expr_ind x) (Expr_ind i)
  | CallExpr f args =>
      HCall f args (Expr_ind f)
        ((fix all (l : list Expr) : Forall P l :=
            match l with
            | [] => List.Forall_nil P
            | x :: l' => List.Forall_cons P x l' (Expr_ind x) (all l')
            end) args)
  | StarExpr x => HStar x (Expr_ind x)
  | UnaryExpr op x => HUnary op x (Expr_ind x)
  | BinaryExpr x op y => HBinary x op y (Expr_ind x) (Expr_ind y)
  end.

End Expr_induction.

(* ===================================================================== *)
(** * astequal and Unparen                                                *)
(* ===================================================================== *)

Lemma astequal_Expr_refl (x : Expr) : astequal_Expr x x = true.
Proof.
  induction x using Expr_ind; simpl;
    rewrite ?bool_decide_eq_true_2 by done; rewrite ?IHx, ?IHx1, ?IHx2; try done.
  induction H as [|u l Hu _ IH]; [done|]. simpl. by rewrite Hu.
Qed.

Lemma astequal_Expr_true (x y : Expr) : astequal_Expr x y = true -> x = y.
Proof.
  revert y. induction x using Expr_ind; intros [] Heq; simpl in Heq;
    try discriminate;
    repeat match goal with
           | H : _ && _ = true |- _ => apply andb_true_iff in H as [? ?]
           | H : bool_decide _ = true |- _ => apply bool_decide_eq_true_1 in H
           end; subst; try done.
  - f_equal; auto.
  - f_equal; auto.
  - f_equal; auto.
  - f_equal; auto.
    match goal with Hs : _ = true |- _ => revert Hs end.
    generalize dependent Args.
    induction H as [|u l Hu _ IH]; intros [|v l'] Hs; try done.
    apply andb_true_iff in Hs as [? ?]. f_equal; auto.
  - f_equal; auto.
  - f_equal; auto.
  - f_equal; auto.
Qed.

Lemma astequal_Expr_eq (x y : Expr) : astequal_Expr x y = true <-> x = y.
Proof. split; [apply astequal_Expr_true | intros ->; apply astequal_Expr_refl]. Qed.

Lemma Unparen_parens (n : nat) (e : Expr) : Unparen (parens n e) = Unparen e.
Proof. induction n; simpl; auto. Qed.

(* ===================================================================== *)
(** * The dupSubExpr checker                                              *)
(* ===================================================================== *)

(** Closes a membership in a concrete list, or another decidable closed
    goal, by evaluation. *)
Ltac by_decide := apply (bool_decide_unpack _); vm_compute; exact I.

Section DupSubExpr.

Import dupSubExpr.

(** What [Init] leaves in the two maps. *)
Lemma Init_opSet (op : Token) :
  map_get (opSet Init) op = bool_decide (op ∈ detection_set).
Proof. by destruct op; vm_compute. Qed.

Lemma Init_floatOpsSet (op : Token) :
  map_get (floatOpsSet Init) op = bool_decide (op ∈ float_sensitive).
Proof. by destruct op; vm_compute. Qed.

Lemma detection_set_split (op : Token) :
  bool_decide (op ∈ detection_set) =
  bool_decide (op ∈ always_flagged) || bool_decide (op ∈ float_sensitive).
Proof. by destruct op; vm_compute. Qed.

Lemma always_flagged_not_float (op : Token) :
  op ∈ always_flagged ->
  bool_decide (op ∈ detection_set) = true /\ bool_decide (op ∈ float_sensitive) = false.
Proof.
  intros H. apply (bool_decide_eq_true_2 _) in H. revert H.
  by destruct op; vm_compute.
Qed.

(** Equal operands are classified alike, so [isSafe] of the whole binary
    node is [isSafe] of its left operand. *)
Lemma isSafe_duplicate (x : Expr) (op : Token) (y : Expr) :
  astequal_Expr x y = true -> isSafe (BinaryExpr x op y) = isSafe x.
Proof.
  intros ->%astequal_Expr_eq. simpl. by destruct (isSafe y).
Qed.

(** The decision of [checkBinaryExpr] after [Init], in one expression. *)
Lemma checkBinaryExpr_Init (TypeOf : Expr -> option GoType)
    (x : Expr) (op : Token) (y : Expr) :
  checkBinaryExpr TypeOf Init x op y =
  if bool_decide (op ∈ detection_set)
     && negb (resultIsFloat TypeOf x && bool_decide (op ∈ float_sensitive))
     && astequal_Expr x y && isSafe x
  then warn x op y
  else [].
Proof.
  unfold checkBinaryExpr. rewrite Init_opSet, Init_floatOpsSet.
  destruct (bool_decide (op ∈ detection_set)); simpl; [|done].
  destruct (resultIsFloat TypeOf x && bool_decide (op ∈ float_sensitive)); simpl; [done|].
  destruct (astequal_Expr x y) eqn:E.
  - pose proof (isSafe_duplicate x op y E) as Hs. simpl in Hs. rewrite Hs.
    by destruct (isSafe x).
  - by rewrite !andb_false_r.
Qed.

(** C1, as the code has it.  After [Init], [checkBinaryExpr] sends exactly
    one warning when the operator is in the detection set, the float
    exception does not apply, the two operands are equal for
    [astequal.Expr] (the strict equality: a parenthesized operand differs
    from the bare one) and the operand is safe; otherwise it sends
    nothing. *)
Theorem checkBinaryExpr_fires_iff (TypeOf : Expr -> option GoType)
    (x : Expr) (op : Token) (y : Expr) :
  (astequal_Expr x y = true <-> x = y) /\
  checkBinaryExpr TypeOf Init x op y =
  if bool_decide (op ∈ detection_set)
     && negb (resultIsFloat TypeOf x && bool_decide (op ∈ float_sensitive))
     && astequal_Expr x y && isSafe x
  then [ mkWarning (BinaryExpr x op y)
           "suspicious identical LHS and RHS for `%s` operator" [ArgToken op] ]
  else [].
Proof. split; [apply astequal_Expr_eq | apply checkBinaryExpr_Init]. Qed.

(** C1 as stated fails: in [x < (x)] the operator is in the detection set,
    nothing is floating-point, the operands are equal once parentheses are
    transparent and [x] is safe, yet no warning is sent. *)
Lemma paren_operand_not_flagged :
  bool_decide (LSS ∈ detection_set) = true /\
  resultIsFloat (fun _ => None) (Ident "x") = false /\
  paren_transparent_equal (Ident "x") (ParenExpr (Ident "x")) = true /\
  isSafe (Ident "x") = true /\
  VisitExpr (fun _ => None) Init
    (BinaryExpr (Ident "x") LSS (ParenExpr (Ident "x"))) = [].
Proof. by vm_compute. Qed.

(** C7, as the code has it.  For [==], [!=], [<=], [>=], [/], [-]: a left
    operand whose type is a [*types.Basic] with the [IsFloat] flag
    silences the warning; a warning implies that the left operand is not
    so classified; and the decision is exactly that of the duplicate test
    when the left operand is not so classified.  A left operand without
    type information is not floating-point, and then the decision is the
    one without the float exception.  For the nine other operators the
    decision does not depend on the Type Oracle. *)
Theorem float_exception (TypeOf : Expr -> option GoType)
    (x : Expr) (op : Token) (y : Expr) :
  (forall b : Basic,
      TypeOf x = Some (TBasic b) -> Z.land (Info b) IsFloat <> 0 ->
      op ∈ float_sensitive ->
      checkBinaryExpr TypeOf Init x op y = []) /\
  (op ∈ float_sensitive ->
   checkBinaryExpr TypeOf Init x op y <> [] ->
   resultIsFloat TypeOf x = false /\
   forall b : Basic, TypeOf x = Some (TBasic b) -> Z.land (Info b) IsFloat = 0) /\
  (op ∈ float_sensitive ->
   checkBinaryExpr TypeOf Init x op y =
   if negb (resultIsFloat TypeOf x) && astequal_Expr x y && isSafe x
   then [ mkWarning (BinaryExpr x op y)
            "suspicious identical LHS and RHS for `%s` operator" [ArgToken op] ]
   else []) /\
  (TypeOf x = None ->
   resultIsFloat TypeOf x = false /\
   checkBinaryExpr TypeOf Init x op y =
   if bool_decide (op ∈ detection_set) && astequal_Expr x y && isSafe x
   then [ mkWarning (BinaryExpr x op y)
            "suspicious identical LHS and RHS for `%s` operator" [ArgToken op] ]
   else []) /\
  (op ∈ always_flagged ->
   checkBinaryExpr TypeOf Init x op y =
   if astequal_Expr x y && isSafe x
   then [ mkWarning (BinaryExpr x op y)
            "suspicious identical LHS and RHS for `%s` operator" [ArgToken op] ]
   else []).
Proof.
  split; [|split; [|split; [|split]]].
  - intros b Hb Hflag Hop. rewrite checkBinaryExpr_Init.
    assert (resultIsFloat TypeOf x = true) as ->.
    { unfold resultIsFloat. rewrite Hb. by apply negb_true_iff, Z.eqb_neq. }
    rewrite (bool_decide_eq_true_2 _ Hop). simpl. by rewrite andb_false_r.
  - intros Hop Hw. rewrite checkBinaryExpr_Init in Hw.
    rewrite (bool_decide_eq_true_2 _ Hop), andb_true_r in Hw.
    assert (resultIsFloat TypeOf x = false) as Hf.
    { destruct (resultIsFloat TypeOf x); [|done]. by rewrite andb_false_r in Hw. }
    split; [done|]. intros b Hb. unfold resultIsFloat in Hf. rewrite Hb in Hf.
    by apply negb_false_iff, Z.eqb_eq in Hf.
  - intros Hop. rewrite checkBinaryExpr_Init, detection_set_split.
    rewrite (bool_decide_eq_true_2 _ Hop), orb_true_r, andb_true_r. done.
  - intros Hnone.
    assert (resultIsFloat TypeOf x = false) as Hf
      by (unfold resultIsFloat; by rewrite Hnone).
    split; [done|]. rewrite checkBinaryExpr_Init, Hf. simpl.
    by rewrite andb_true_r.
  - intros Hop. rewrite checkBinaryExpr_Init.
    destruct (always_flagged_not_float op Hop) as [-> ->].
    by rewrite andb_false_r.
Qed.

Lemma float_exception_witness :
  checkBinaryExpr (fun _ => Some (TBasic Typ_Float64)) Init
    (Ident "x") EQL (Ident "x") = [] /\
  resultIsFloat (fun _ => Some (TBasic Typ_Int)) (Ident "x") = false /\
  checkBinaryExpr (fun _ => Some (TBasic Typ_Int)) Init (Ident "x") SUB (Ident "x") =
    [ mkWarning (BinaryExpr (Ident "x") SUB (Ident "x"))
        "suspicious identical LHS and RHS for `%s` operator" [ArgToken SUB] ] /\
  checkBinaryExpr (fun _ => None) Init (Ident "x") EQL (Ident "x") =
    [ mkWarning (BinaryExpr (Ident "x") EQL (Ident "x"))
        "suspicious identical LHS and RHS for `%s` operator" [ArgToken EQL] ] /\
  checkBinaryExpr (fun _ => Some (TBasic Typ_Float64)) Init (Ident "x") LSS (Ident "x") =
    [ mkWarning (BinaryExpr (Ident "x") LSS (Ident "x"))
        "suspicious identical LHS and RHS for `%s` operator" [ArgToken LSS] ].
Proof.
  split; [|split; [|split; [|split]]].
  - apply (proj1 (float_exception (fun _ => Some (TBasic Typ_Float64))
                    (Ident "x") EQL (Ident "x")) Typ_Float64).
    + reflexivity.
    + vm_compute. discriminate.
    + by_decide.
  - apply (proj1 (proj2 (float_exception (fun _ => Some (TBasic Typ_Int))
                           (Ident "x") EQL (Ident "x")))).
    + by_decide.
    + vm_compute. discriminate.
  - apply (proj1 (proj2 (proj2 (float_exception (fun _ => Some (TBasic Typ_Int))
                                  (Ident "x") SUB (Ident "x"))))).
    by_decide.
  - apply (proj1 (proj2 (proj2 (proj2 (float_exception (fun _ => None)
                                         (Ident "x") EQL (Ident "x")))))).
    reflexivity.
  - apply (proj2 (proj2 (proj2 (proj2 (float_exception
                                         (fun _ => Some (TBasic Typ_Float64))
                                         (Ident "x") LSS (Ident "x")))))).
    by_decide.
Defined.

(** C7 as stated fails.  [Celsius], declared [type Celsius float64], is a
    floating-point type, [==] is one of the six operators, and [x == x]
    with [x] a [Celsius] is flagged all the same: its type is not a
    [*types.Basic]. *)
Lemma defined_float_flagged :
  spec_floating_point (TNamed "Celsius" (TBasic Typ_Float64)) = true /\
  bool_decide (EQL ∈ float_sensitive) = true /\
  resultIsFloat (fun _ => Some (TNamed "Celsius" (TBasic Typ_Float64))) (Ident "x") =
    false /\
  checkBinaryExpr (fun _ => Some (TNamed "Celsius" (TBasic Typ_Float64))) Init
    (Ident "x") EQL (Ident "x") =
    [ mkWarning (BinaryExpr (Ident "x") EQL (Ident "x"))
        "suspicious identical LHS and RHS for `%s` operator" [ArgToken EQL] ].
Proof. by vm_compute. Qed.

Lemma isSafe_safe_shape (e : Expr) : isSafe e = true <-> safe_shape e.
Proof.
  split.
  - induction e using Expr_ind; simpl; intros Hs; try discriminate;
      repeat match goal with
             | H : _ && _ = true |- _ => apply andb_true_iff in H as [? ?]
             end;
      try (constructor; auto).
    intros ->. done.
  - induction 1; simpl; rewrite ?andb_true_iff; repeat split; auto.
    by rewrite bool_decide_eq_false_2.
Qed.

(** C8.  [isSafe] answers [true] exactly on the whitelisted shapes and
    [false] on every other node; a binary node whose left operand is a call
    is never flagged, whatever the operator, the types and the right
    operand, and neither is one whose left operand is a parenthesized or
    bare channel receive. *)
Theorem isSafe_whitelist :
  (forall e : Expr, isSafe e = true <-> safe_shape e) /\
  (forall (f : Expr) (args : list Expr), isSafe (CallExpr f args) = false) /\
  (forall x : Expr, isSafe (StarExpr x) = false) /\
  (forall (TypeOf : Expr -> option GoType) (f : Expr) (args : list Expr)
          (op : Token) (y : Expr),
      VisitExpr TypeOf Init (BinaryExpr (CallExpr f args) op y) = []) /\
  (forall (TypeOf : Expr -> option GoType) (ch : Expr) (op : Token) (y : Expr),
      VisitExpr TypeOf Init (BinaryExpr (ParenExpr (UnaryExpr ARROW ch)) op y) = [] /\
      VisitExpr TypeOf Init (BinaryExpr (UnaryExpr ARROW ch) op y) = []).
Proof.
  split; [apply isSafe_safe_shape|].
  split; [done|]. split; [done|].
  split; [|split]; intros; simpl; rewrite checkBinaryExpr_Init; simpl;
    by rewrite andb_false_r.
Qed.

(** C10.  [resultIsFloat] is [true] exactly when [TypeOf] answers a
    [*types.Basic] whose info has the [IsFloat] flag; a type that is not a
    [*types.Basic] (a defined type over a float among them) is classified
    not floating-point, and a safe duplicated operand under [==], [!=],
    [<=], [>=], [/] or [-] is then flagged: the one warning for the node
    is sent. *)
Theorem resultIsFloat_basic_only (TypeOf : Expr -> option GoType) (e : Expr) :
  (resultIsFloat TypeOf e = true <->
   exists typ : Basic, TypeOf e = Some (TBasic typ) /\ Z.land (Info typ) IsFloat <> 0) /\
  (forall t : GoType,
      TypeOf e = Some t -> (forall b : Basic, t <> TBasic b) ->
      resultIsFloat TypeOf e = false /\
      forall op : Token,
        op ∈ float_sensitive -> isSafe e = true ->
        checkBinaryExpr TypeOf Init e op e =
        [ mkWarning (BinaryExpr e op e)
            "suspicious identical LHS and RHS for `%s` operator" [ArgToken op] ] /\
        VisitExpr TypeOf Init (BinaryExpr e op e) =
        [ mkWarning (BinaryExpr e op e)
            "suspicious identical LHS and RHS for `%s` operator" [ArgToken op] ]).
Proof.
  split.
  - unfold resultIsFloat. split.
    + destruct (TypeOf e) as [[typ| | | |]|]; try discriminate.
      intros H. exists typ. split; [done|].
      apply negb_true_iff, Z.eqb_neq in H. done.
    + intros (typ & -> & Hne). by apply negb_true_iff, Z.eqb_neq.
  - intros t Ht Hnb.
    assert (resultIsFloat TypeOf e = false) as Hf.
    { unfold resultIsFloat. rewrite Ht. destruct t; try done. by destruct (Hnb b). }
    split; [done|]. intros op Hop Hs.
    assert (checkBinaryExpr TypeOf Init e op e =
            [ mkWarning (BinaryExpr e op e)
                "suspicious identical LHS and RHS for `%s` operator" [ArgToken op] ])
      as Hw; [|by split].
    rewrite checkBinaryExpr_Init, Hf, Hs, astequal_Expr_refl.
    rewrite detection_set_split, (bool_decide_eq_true_2 _ Hop). simpl.
    by rewrite orb_true_r.
Qed.

Lemma resultIsFloat_basic_only_witness :
  resultIsFloat (fun _ => Some (TNamed "Celsius" (TBasic Typ_Float64))) (Ident "x") = false /\
  checkBinaryExpr (fun _ => Some (TNamed "Celsius" (TBasic Typ_Float64)))
    Init (Ident "x") EQL (Ident "x") =
  [ mkWarning (BinaryExpr (Ident "x") EQL (Ident "x"))
      "suspicious identical LHS and RHS for `%s` operator" [ArgToken EQL] ].
Proof.
  pose proof (proj2 (resultIsFloat_basic_only
                       (fun _ => Some (TNamed "Celsius" (TBasic Typ_Float64)))
                       (Ident "x"))
                (TNamed "Celsius" (TBasic Typ_Float64)) eq_refl
                (fun b H => eq_ind (TNamed "Celsius" (TBasic Typ_Float64))
                              (fun t => match t with TNamed _ _ => True | _ => False end)
                              I _ H)) as [Hf Hw].
  split; [exact Hf|]. apply Hw; [by_decide | reflexivity].
Defined.

End DupSubExpr.

(* ===================================================================== *)
(** * The rewrite rules on trees                                          *)
(* ===================================================================== *)

Section Rules.

Import boolExprSimplify.

Lemma inverted_involutive (op op' : Token) :
  inverted op = Some op' -> inverted op' = Some op.
Proof. destruct op; simpl; intros [= <-]; reflexivity. Qed.

Lemma unaryNot_is_not (e : Expr) :
  unaryNot (Some e) = if is_not e then Some e else None.
Proof. destruct e; try reflexivity. by destruct Op. Qed.

Lemma doubleNegation_Some (cur r : Expr) :
  doubleNegation cur = Some r <->
  exists x1 x2, cur = UnaryExpr NOT x1 /\ Unparen x1 = UnaryExpr NOT x2 /\ r = Unparen x2.
Proof.
  unfold doubleNegation. split.
  - destruct cur as [| | | | | | |op x1|]; simpl; try discriminate.
    case_bool_decide; [subst|discriminate]. simpl.
    destruct (Unparen x1) as [| | | | | | |op2 x2|] eqn:E; simpl; try discriminate.
    case_bool_decide; [subst|discriminate]. simpl. intros [= <-]. eauto.
  - intros (x1 & x2 & -> & E & ->). simpl. rewrite E. reflexivity.
Qed.

Lemma doubleNegation_None_not (x : Expr) :
  is_not (Unparen x) = false -> doubleNegation (UnaryExpr NOT x) = None.
Proof.
  intros H. unfold doubleNegation.
  change (field_X (unaryNot (Some (UnaryExpr NOT x)))) with (Some x).
  unfold Unparen_nil. cbn [fmap option_fmap option_map].
  by rewrite (unaryNot_is_not (Unparen x)), H.
Qed.

Lemma negatedEquals_Some (cur r : Expr) :
  negatedEquals cur = Some r <->
  exists a b, cur = BinaryExpr (UnaryExpr NOT a) EQL (UnaryExpr NOT b) /\
              r = BinaryExpr a EQL b.
Proof.
  split.
  - destruct cur; simpl; try discriminate.
    case_bool_decide; simpl; [subst|discriminate].
    destruct cur1 as [| | | | | | |op1 a|]; simpl; try discriminate.
    case_bool_decide; [subst|discriminate]. simpl.
    destruct cur2 as [| | | | | | |op2 b|]; simpl; try discriminate.
    case_bool_decide; [subst|discriminate]. simpl.
    intros [= <-]. eauto.
  - intros (a & b & -> & ->). reflexivity.
Qed.

Lemma invertComparison_not (x a b : Expr) (op : Token) :
  Unparen x = BinaryExpr a op b ->
  invertComparison (UnaryExpr NOT x) = (fun op' => BinaryExpr a op' b) <$> inverted op.
Proof.
  intros E. unfold invertComparison. simpl. rewrite E. simpl. by destruct op.
Qed.

Lemma invertComparison_None_other (x : Expr) :
  (forall a op b, Unparen x <> BinaryExpr a op b) ->
  invertComparison (UnaryExpr NOT x) = None.
Proof.
  intros H. unfold invertComparison. simpl.
  destruct (Unparen x) as [| | | | | | | |a op b] eqn:E; try reflexivity.
  by destruct (H a op b).
Qed.

Lemma post_not_comparison (x a b : Expr) (op : Token) :
  Unparen x = BinaryExpr a op b ->
  post (UnaryExpr NOT x) =
  match inverted op with
  | Some op' => BinaryExpr a op' b
  | None => UnaryExpr NOT x
  end.
Proof.
  intros E. unfold post.
  rewrite doubleNegation_None_not by (by rewrite E). simpl.
  rewrite (invertComparison_not x a b op E). by destruct (inverted op).
Qed.

Lemma simplifyBool_parens (n : nat) (x : Expr) :
  simplifyBool (parens n x) = parens n (simplifyBool x).
Proof.
  induction n as [|n IH]; [done|].
  change (parens (S n) x) with (ParenExpr (parens n x)).
  change (parens (S n) (simplifyBool x)) with (ParenExpr (parens n (simplifyBool x))).
  simpl. by rewrite IH.
Qed.

Lemma simplifyBool_UnaryExpr (op : Token) (x : Expr) :
  simplifyBool (UnaryExpr op x) = post (UnaryExpr op (simplifyBool x)).
Proof. reflexivity. Qed.

Lemma simplifyBool_BinaryExpr (x : Expr) (op : Token) (y : Expr) :
  simplifyBool (BinaryExpr x op y) = post (BinaryExpr (simplifyBool x) op (simplifyBool y)).
Proof. reflexivity. Qed.





(** C3, as the code has it.  [negatedEquals] fires exactly on a [==] node
    whose two operands are themselves unary logical-nots, with no
    parentheses around them, and leaves [==] of the two un-negated
    operands; so does the whole [post] step.  A [!=] node is never
    rewritten: one pass only simplifies its operands.  When [!a] and [!b]
    are left as [!a'] and [!b'] by the pass, [!a == !b] becomes
    [a' == b']. *)
Theorem negated_equals :
  (forall cur r : Expr,
      negatedEquals cur = Some r <->
      exists a b, cur = BinaryExpr (UnaryExpr NOT a) EQL (UnaryExpr NOT b) /\
                  r = BinaryExpr a EQL b) /\
  (forall a b : Expr,
      post (BinaryExpr (UnaryExpr NOT a) EQL (UnaryExpr NOT b)) = BinaryExpr a EQL b) /\
  (forall x y : Expr,
      negatedEquals (BinaryExpr x NEQ y) = None /\
      simplifyBool (BinaryExpr x NEQ y) = BinaryExpr (simplifyBool x) NEQ (simplifyBool y)) /\
  (forall a b a' b' : Expr,
      simplifyBool (UnaryExpr NOT a) = UnaryExpr NOT a' ->
      simplifyBool (UnaryExpr NOT b) = UnaryExpr NOT b' ->
      simplifyBool (BinaryExpr (UnaryExpr NOT a) EQL (UnaryExpr NOT b)) =
      BinaryExpr a' EQL b').
Proof.
  split; [apply negatedEquals_Some|].
  split; [reflexivity|].
  split; [split; reflexivity|].
  intros a b a' b' Ha Hb. rewrite simplifyBool_BinaryExpr, Ha, Hb. reflexivity.
Qed.

Lemma negated_equals_witness :
  simplifyBool (BinaryExpr (UnaryExpr NOT (Ident "a")) EQL (UnaryExpr NOT (Ident "b"))) =
  BinaryExpr (Ident "a") EQL (Ident "b").
Proof.
  apply (proj2 (proj2 (proj2 negated_equals))); reflexivity.
Defined.

(** C3 as stated fails.  In [(!a) == (!b)] both operands are unary
    logical-nots after unwrapping parentheses, yet one pass leaves the
    expression as it is. *)
Lemma negated_equals_keeps_parenthesized :
  Unparen (ParenExpr (UnaryExpr NOT (Ident "a"))) = UnaryExpr NOT (Ident "a") /\
  Unparen (ParenExpr (UnaryExpr NOT (Ident "b"))) = UnaryExpr NOT (Ident "b") /\
  simplifyBool
    (BinaryExpr (ParenExpr (UnaryExpr NOT (Ident "a"))) EQL
                (ParenExpr (UnaryExpr NOT (Ident "b")))) =
  BinaryExpr (ParenExpr (UnaryExpr NOT (Ident "a"))) EQL
             (ParenExpr (UnaryExpr NOT (Ident "b"))).
Proof. by vm_compute. Qed.

(** C4.  On a unary logical-not whose operand, after unwrapping
    parentheses, is the binary node [a op b], [invertComparison] answers
    by the table: for [==], [!=], [<], [>], [<=], [>=] the node becomes
    [a op' b] with the inverted operator and without the negation, for any
    other operator there is no match.  The [post] step gives the same
    (no earlier rule applies) and leaves the node untouched when there is
    no match; so does one pass, on the simplified operand. *)
Theorem invert_comparison (x a b : Expr) (op : Token) :
  (Unparen x = BinaryExpr a op b ->
   invertComparison (UnaryExpr NOT x) = (fun op' => BinaryExpr a op' b) <$> inverted op /\
   post (UnaryExpr NOT x) =
   match inverted op with
   | Some op' => BinaryExpr a op' b
   | None => UnaryExpr NOT x
   end) /\
  (Unparen (simplifyBool x) = BinaryExpr a op b ->
   simplifyBool (UnaryExpr NOT x) =
   match inverted op with
   | Some op' => BinaryExpr a op' b
   | None => UnaryExpr NOT (simplifyBool x)
   end).
Proof.
  split.
  - intros E. split; [by apply invertComparison_not | by apply post_not_comparison].
  - intros E. rewrite simplifyBool_UnaryExpr. by apply post_not_comparison.
Qed.

Lemma invert_comparison_witness :
  post (UnaryExpr NOT (ParenExpr (BinaryExpr (Ident "a") GEQ (Ident "b")))) =
    BinaryExpr (Ident "a") LSS (Ident "b") /\
  simplifyBool (UnaryExpr NOT (ParenExpr (BinaryExpr (Ident "a") ADD (Ident "b")))) =
    UnaryExpr NOT (ParenExpr (BinaryExpr (Ident "a") ADD (Ident "b"))).
Proof.
  split.
  - apply (proj1 (invert_comparison
                    (ParenExpr (BinaryExpr (Ident "a") GEQ (Ident "b")))
                    (Ident "a") (Ident "b") GEQ)).
    reflexivity.
  - apply (proj2 (invert_comparison
                    (ParenExpr (BinaryExpr (Ident "a") ADD (Ident "b")))
                    (Ident "a") (Ident "b") ADD)).
    reflexivity.
Defined.

End Rules.

(* ===================================================================== *)
(** * The store: reasoning rules and trees                                *)
(* ===================================================================== *)

Ltac invert H := inversion H; subst; clear H.

Section Store.

Local Open Scope nat_scope.

Implicit Types (h : list Mem.cell) (l n p : Mem.loc) (t : Expr) (fp : gset Mem.loc).

Lemma wp_ret {A} (a : A) h Q : Q a h -> wp (Mem.ret a) h Q.
Proof. intros HQ. by exists a, h. Qed.

Lemma wp_bind {A B} (m : Mem.M A) (k : A -> Mem.M B) h Q :
  wp m h (fun a h' => wp (k a) h' Q) -> wp (Mem.bind m k) h Q.
Proof.
  intros (a & h' & Hm & b & h'' & Hk & HQ). exists b, h''.
  split; [|done]. unfold Mem.bind. by rewrite Hm.
Qed.

Lemma wp_mono {A} (m : Mem.M A) h (Q Q' : A -> list Mem.cell -> Prop) :
  wp m h Q -> (forall a h', Q a h' -> Q' a h') -> wp m h Q'.
Proof. intros (a & h' & Hm & HQ) Himp. exists a, h'. auto. Qed.

Lemma wp_load l c h Q : h !! l = Some c -> Q c h -> wp (Mem.load l) h Q.
Proof. intros Hl HQ. exists c, h. split; [|done]. unfold Mem.load. by rewrite Hl. Qed.

Lemma wp_store l c h Q :
  l < length h -> Q tt (<[l := c]> h) -> wp (Mem.store_cell l c) h Q.
Proof.
  intros Hl HQ. exists tt, (<[l := c]> h). split; [|done].
  unfold Mem.store_cell. by rewrite decide_True.
Qed.

Lemma wp_alloc c h Q : Q (length h) (h ++ [c]) -> wp (Mem.alloc c) h Q.
Proof. intros HQ. by exists (length h), (h ++ [c]). Qed.

Lemma wp_cells h Q : Q (length h) h -> wp Mem.cells h Q.
Proof. intros HQ. by exists (length h), h. Qed.

Lemma wp_of_option {A} (o : option A) (a : A) h Q :
  o = Some a -> Q a h -> wp (Mem.of_option o) h Q.
Proof. intros -> HQ. by apply wp_ret. Qed.

Lemma wp_read p f c n h Q :
  h !! p = Some c -> Mem.get_field c f = Some n -> Q n h -> wp (Mem.read p f) h Q.
Proof.
  intros Hp Hf HQ. apply wp_bind. eapply wp_load; [done|].
  by eapply wp_of_option.
Qed.

Lemma wp_assign p f n c c' h Q :
  h !! p = Some c -> Mem.set_field c f n = Some c' ->
  Q tt (<[p := c']> h) -> wp (Mem.assign p f n) h Q.
Proof.
  intros Hp Hf HQ. apply wp_bind. eapply wp_load; [done|].
  apply wp_bind. eapply wp_of_option; [done|].
  apply wp_store; [by eapply lookup_lt_Some | done].
Qed.

(** A Mem.field that can be Mem.read can be written, and writing back what was
    Mem.read changes nothing. *)
Lemma set_field_of_get (c : Mem.cell) (f : Mem.field) (n n' : Mem.loc) :
  Mem.get_field c f = Some n -> exists c', Mem.set_field c f n' = Some c'.
Proof.
  destruct f, c; simpl; try discriminate; eauto.
  intros H%lookup_lt_Some. rewrite decide_True by done. eauto.
Qed.

Lemma set_field_same (c : Mem.cell) (f : Mem.field) (n : Mem.loc) :
  Mem.get_field c f = Some n -> Mem.set_field c f n = Some c.
Proof.
  destruct f, c; simpl; try discriminate; try by intros [= ->].
  intros H. rewrite decide_True by (by eapply lookup_lt_Some).
  by rewrite list_insert_id.
Qed.

Lemma extends_refl h : extends h h.
Proof. by split. Qed.

Lemma extends_trans h1 h2 h3 : extends h1 h2 -> extends h2 h3 -> extends h1 h3.
Proof.
  intros [L1 E1] [L2 E2]. split; [lia|].
  intros k Hk. rewrite E2 by lia. by apply E1.
Qed.

Lemma extends_app h ext : extends h (h ++ ext).
Proof.
  split; [rewrite length_app; lia|]. intros k Hk. by apply lookup_app_l.
Qed.

(** ** Trees in the store *)

Lemma tree_at_root h l t fp : tree_at h l t fp -> l ∈ fp.
Proof. destruct 1; set_solver. Qed.

Lemma tree_at_frame_mut h h' :
  (forall l t fp, tree_at h l t fp ->
      (forall k, k ∈ fp -> h' !! k = h !! k) -> tree_at h' l t fp) /\
  (forall ls ts fp, trees_at h ls ts fp ->
      (forall k, k ∈ fp -> h' !! k = h !! k) -> trees_at h' ls ts fp).
Proof.
  apply tree_trees_ind; intros;
    try (econstructor; eauto;
         first [ match goal with
                 | Hf : forall k, _ -> h' !! k = h !! k |- h' !! ?l = _ =>
                     rewrite (Hf l) by set_solver; done
                 end
               | match goal with
                 | IH : (forall k, _ -> h' !! k = h !! k) -> _ |- _ =>
                     apply IH; intros; match goal with
                                       | Hf : forall k, _ -> h' !! k = h !! k |- _ =>
                                           apply Hf; set_solver
                                       end
                 end ]).
Qed.

Lemma tree_at_frame h h' l t fp :
  tree_at h l t fp -> (forall k, k ∈ fp -> h' !! k = h !! k) -> tree_at h' l t fp.
Proof. apply tree_at_frame_mut. Qed.

Lemma trees_at_frame h h' ls ts fp :
  trees_at h ls ts fp -> (forall k, k ∈ fp -> h' !! k = h !! k) -> trees_at h' ls ts fp.
Proof. apply tree_at_frame_mut. Qed.

Lemma tree_at_dom_mut h :
  (forall l t fp, tree_at h l t fp -> forall k, k ∈ fp -> k < length h) /\
  (forall ls ts fp, trees_at h ls ts fp -> forall k, k ∈ fp -> k < length h).
Proof.
  apply tree_trees_ind; intros;
    repeat match goal with
           | H : _ ∈ _ ∪ _ |- _ => apply elem_of_union in H as [H|H]
           | H : _ ∈ {[ _ ]} |- _ => apply elem_of_singleton in H; subst
           | H : _ ∈ ∅ |- _ => by apply not_elem_of_empty in H
           end; eauto using lookup_lt_Some.
Qed.

Lemma tree_at_dom h l t fp k : tree_at h l t fp -> k ∈ fp -> k < length h.
Proof. intros H. by apply (proj1 (tree_at_dom_mut h) l t fp). Qed.

Lemma trees_at_dom h ls ts fp k : trees_at h ls ts fp -> k ∈ fp -> k < length h.
Proof. intros H. by apply (proj2 (tree_at_dom_mut h) ls ts fp). Qed.

Lemma tree_at_extends h h' l t fp :
  extends h h' -> tree_at h l t fp -> tree_at h' l t fp.
Proof.
  intros [_ E] Ht. eapply tree_at_frame; [done|].
  intros k Hk. apply E. by eapply tree_at_dom.
Qed.

Lemma trees_at_extends h h' ls ts fp :
  extends h h' -> trees_at h ls ts fp -> trees_at h' ls ts fp.
Proof.
  intros [_ E] Ht. eapply trees_at_frame; [done|].
  intros k Hk. apply E. by eapply trees_at_dom.
Qed.

Lemma tree_at_size_mut h :
  (forall l t fp, tree_at h l t fp -> height t <= size fp) /\
  (forall ls ts fp, trees_at h ls ts fp ->
      foldr (fun a => Nat.max (height a)) 0 ts <= size fp).
Proof.
  apply tree_trees_ind; intros; cbn [height foldr];
    rewrite ?size_union by set_solver; rewrite ?size_singleton, ?size_empty; lia.
Qed.

Lemma footprint_size h fp : (forall k, k ∈ fp -> k < length h) -> size fp <= length h.
Proof.
  intros Hdom. rewrite <- (size_set_seq (C := gset nat) 0 (length h)).
  apply subseteq_size. intros k Hk. apply elem_of_set_seq. split; [lia|].
  by apply Hdom.
Qed.

(** A tree fits in the store, so the number of Mem.cells is fuel enough. *)
Lemma tree_at_height h l t fp : tree_at h l t fp -> height t <= length h.
Proof.
  intros Ht. etrans; [by apply (proj1 (tree_at_size_mut h) l t fp)|].
  apply footprint_size. intros k. by eapply tree_at_dom.
Qed.

(** ** [astequal.Expr] on the store computes the comparison of the trees *)

Lemma astExprSliceEq_trees h fuel :
  forall ts1, Forall (fun t1 => forall x y t2 f1 f2,
                        tree_at h x t1 f1 -> tree_at h y t2 f2 ->
                        height t1 <= fuel ->
                        Mem.astExprEq fuel h x y = Some (astequal_Expr t1 t2)) ts1 ->
  forall xs ys ts2 f1 f2,
    trees_at h xs ts1 f1 -> trees_at h ys ts2 f2 ->
    foldr (fun a => Nat.max (height a)) 0 ts1 <= fuel ->
    Mem.astExprSliceEq (Mem.astExprEq fuel h) xs ys =
    Some (astExprSliceEq astequal_Expr ts1 ts2).
Proof.
  induction 1 as [|t1 ts1 Ht1 _ IH]; intros xs ys ts2 f1 f2 H1 H2 Hfuel;
    invert H1; invert H2; simpl; try done.
  simpl in Hfuel.
  erewrite Ht1 by (eauto; lia). simpl.
  erewrite IH by (eauto; lia). done.
Qed.

Ltac use_astExprEq IH :=
  match goal with
  | H1 : tree_at ?h ?a _ ?f1, H2 : tree_at ?h ?b ?t2 ?f2
    |- context [Mem.astExprEq ?fuel ?h ?a ?b] =>
      rewrite (IH fuel a b t2 f1 f2 H1 H2) by lia; simpl
  end.

Lemma astExprEq_tree h :
  forall t1 fuel x y t2 f1 f2,
    tree_at h x t1 f1 -> tree_at h y t2 f2 -> height t1 <= fuel ->
    Mem.astExprEq fuel h x y = Some (astequal_Expr t1 t2).
Proof.
  induction t1 using Expr_ind; intros [|fuel] x y t2 f1 f2 H1 H2 Hfuel;
    simpl in Hfuel; try lia;
    invert H1; invert H2; simpl;
    repeat match goal with
           | H : h !! _ = Some _ |- _ => rewrite H; clear H
           end; simpl; try done;
    repeat first [use_astExprEq IHt1 | use_astExprEq IHt1_1 | use_astExprEq IHt1_2];
    try done.
  erewrite astExprSliceEq_trees; [done| |done|done|lia].
  eapply Forall_impl; [done|]. intros t1' Ht1' ? ? ? ? ? ? ? ?.
  eapply Ht1'; eauto.
Qed.

(** ** [astcopy.Expr] builds a fresh tree and leaves the store it found *)

Lemma lookup_alloc h (c : Mem.cell) : (h ++ [c]) !! length h = Some c.
Proof. by apply list_lookup_middle. Qed.

Lemma extends_insert_r h h' k (c : Mem.cell) :
  extends h h' -> length h <= k -> extends h (<[k := c]> h').
Proof.
  intros [L E] Hk. split; [by rewrite length_insert|].
  intros j Hj. rewrite list_lookup_insert_ne by lia. by apply E.
Qed.

Lemma tree_at_insert_other h k (c : Mem.cell) l t fp :
  tree_at h l t fp -> k ∉ fp -> tree_at (<[k := c]> h) l t fp.
Proof.
  intros Ht Hk. eapply tree_at_frame; [done|].
  intros j Hj. apply list_lookup_insert_ne. set_solver.
Qed.

Lemma trees_at_insert_other h k (c : Mem.cell) ls ts fp :
  trees_at h ls ts fp -> k ∉ fp -> trees_at (<[k := c]> h) ls ts fp.
Proof.
  intros Ht Hk. eapply trees_at_frame; [done|].
  intros j Hj. apply list_lookup_insert_ne. set_solver.
Qed.

(** The copy of a node is complete once its cell, allocated at
    [length h], holds the copies of the children. *)
Lemma copied_node h h' (c0 c : Mem.cell) t fp :
  extends (h ++ [c0]) h' ->
  tree_at (<[length h := c]> h') (length h) t fp ->
  (forall k, k ∈ fp -> length h <= k) ->
  copied h t (length h) (<[length h := c]> h').
Proof.
  intros He Ht Hr. split; [|eauto].
  apply extends_insert_r; [|done].
  eapply extends_trans; [apply extends_app | done].
Qed.

Lemma ExprList_trees fuel :
  forall ts, Forall (fun t => forall h x fp,
                       tree_at h x t fp -> height t <= fuel ->
                       wp (Mem.copyExpr fuel x) h (copied h t)) ts ->
  forall h xs fp,
    trees_at h xs ts fp ->
    foldr (fun a => Nat.max (height a)) 0 ts <= fuel ->
    wp (Mem.ExprList (Mem.copyExpr fuel) xs) h (copied_list h ts).
Proof.
  induction 1 as [|t ts Ht _ IH]; intros h xs fp Hts Hfuel; invert Hts; simpl.
  { apply wp_ret. split; [apply extends_refl|]. exists ∅. split; [constructor|set_solver]. }
  simpl in Hfuel.
  apply wp_bind. eapply wp_mono; [eapply Ht; [done|lia]|].
  intros a' h1 (He1 & fa & Ha & Hra).
  apply wp_bind. eapply wp_mono.
  { eapply IH; [by eapply trees_at_extends|lia]. }
  intros xs' h2 (He2 & fs' & Hxs & Hrs). apply wp_ret.
  split; [by eapply extends_trans|].
  exists (fa ∪ fs'). split.
  - constructor; [by eapply tree_at_extends|done|].
    intros k Hk1 Hk2. apply Hrs in Hk2.
    eapply tree_at_dom in Hk1; [|done]. lia.
  - intros k [Hk|Hk]%elem_of_union; [by apply Hra|].
    apply Hrs in Hk. destruct He1. lia.
Qed.

(** Steps through [load], [alloc] and the monadic glue of a program. *)
Ltac wp_step :=
  first
    [ apply wp_ret
    | apply wp_bind
    | apply wp_alloc
    | apply wp_cells
    | eapply wp_load; [eassumption|] ].

Lemma copied_leaf h (c : Mem.cell) t :
  tree_at (h ++ [c]) (length h) t {[length h]} ->
  copied h t (length h) (h ++ [c]).
Proof.
  intros Ht. split; [apply extends_app|].
  exists {[length h]}. split; [done|]. by intros k ->%elem_of_singleton.
Qed.

(** The copy of a node with one child, after the child has been copied. *)
Ltac copy_one IH :=
  eapply wp_mono;
  [ eapply IH; [|lia]; eapply tree_at_extends; [apply extends_app|eassumption]
  | let He := fresh "He" in
    let Ha := fresh "Ha" in
    let Hra := fresh "Hra" in
    let Hlt := fresh "Hlt" in
    intros ? ? (He & ? & Ha & Hra);
    pose proof (proj1 He) as Hlt; rewrite length_app in Hlt, Hra;
    simpl in Hlt, Hra;
    apply wp_store; [lia|]; wp_step;
    eapply copied_node; [exact He| |];
    [ econstructor;
      [ apply list_lookup_insert_eq; lia
      | apply tree_at_insert_other; [exact Ha|]; intros ?%Hra; lia
      | intros ?%Hra; lia ]
    | intros ? [->%elem_of_singleton| ?%Hra]%elem_of_union; lia ] ].

(** The same for a node with two children. *)
Ltac copy_two IH1 IH2 :=
  eapply wp_mono;
  [ eapply IH1; [|lia]; eapply tree_at_extends; [apply extends_app|eassumption]
  | let He1 := fresh "He" in
    let Ha := fresh "Ha" in
    let Hra := fresh "Hra" in
    intros ? ? (He1 & ? & Ha & Hra); wp_step;
    eapply wp_mono;
    [ eapply IH2; [|lia]; eapply tree_at_extends; [|eassumption];
      eapply extends_trans; [apply extends_app|exact He1]
    | let He2 := fresh "He" in
      let Hb := fresh "Hb" in
      let Hrb := fresh "Hrb" in
      let L1 := fresh "L" in
      let L2 := fresh "L" in
      intros ? ? (He2 & ? & Hb & Hrb);
      pose proof (proj1 He1) as L1; pose proof (proj1 He2) as L2;
      rewrite length_app in L1, Hra; simpl in L1, Hra;
      apply wp_store; [lia|]; wp_step;
      eapply copied_node; [eapply extends_trans; [exact He1|exact He2]| |];
      [ econstructor;
        [ apply list_lookup_insert_eq; lia
        | apply tree_at_insert_other;
          [eapply tree_at_extends; [exact He2|exact Ha]|]; intros ?%Hra; lia
        | apply tree_at_insert_other; [exact Hb|]; intros ?%Hrb; lia
        | let Hk := fresh "Hk" in
          intros ? Hk ?%Hrb; eapply tree_at_dom in Hk; [|exact Ha]; lia
        | intros [?%Hra| ?%Hrb]%elem_of_union; lia ]
      | intros ? [->%elem_of_singleton|[?%Hra| ?%Hrb]%elem_of_union]%elem_of_union;
        lia ] ] ].

Lemma copyExpr_tree :
  forall t fuel h x fp,
    tree_at h x t fp -> height t <= fuel ->
    wp (Mem.copyExpr fuel x) h (copied h t).
Proof.
  induction t using Expr_ind; intros [|fuel] h x fp Ht Hfuel;
    simpl in Hfuel; try lia; invert Ht; simpl;
    repeat (wp_step; simpl).
  - apply copied_leaf. constructor. apply lookup_alloc.
  - apply copied_leaf. constructor. apply lookup_alloc.
  - copy_one IHt.
  - copy_one IHt.
  - copy_two IHt1 IHt2.
  - (* CallExpr *)
    eapply wp_mono.
    { eapply IHt; [|lia]. eapply tree_at_extends; [apply extends_app|done]. }
    intros f' h1 (He1 & ff' & Hf & Hrf). wp_step.
    eapply wp_mono.
    { eapply ExprList_trees; [| |].
      - eapply Forall_impl; [done|]. intros t' Ht' h' x' fp' ? ?. by eapply Ht'.
      - eapply trees_at_extends; [|done].
        eapply extends_trans; [apply extends_app|done].
      - lia. }
    intros args' h2 (He2 & fa' & Hargs & Hrargs).
    pose proof (proj1 He1) as L1. pose proof (proj1 He2) as L2.
    rewrite length_app in L1, Hrf. simpl in L1, Hrf.
    apply wp_store; [lia|]. wp_step.
    eapply copied_node; [by eapply extends_trans| |].
    + econstructor.
      * apply list_lookup_insert_eq; lia.
      * apply tree_at_insert_other; [by eapply tree_at_extends|].
        intros ?%Hrf; lia.
      * apply trees_at_insert_other; [done|]. intros ?%Hrargs; lia.
      * intros k Hk1 Hk2%Hrargs. eapply tree_at_dom in Hk1; [|done]. lia.
      * intros [?%Hrf| ?%Hrargs]%elem_of_union; lia.
    + intros k [->%elem_of_singleton|[?%Hrf| ?%Hrargs]%elem_of_union]%elem_of_union;
        lia.
  - copy_one IHt.
  - copy_one IHt.
  - copy_two IHt1 IHt2.
Qed.

(** ** The helpers of the rules read the tree *)

Lemma wp_eq {A} (m : Mem.M A) h (a : A) h' Q :
  m h = Some (a, h') -> Q a h' -> wp m h Q.
Proof. intros Hm HQ. by exists a, h'. Qed.

Lemma Unparen_loop_tree h :
  forall t steps l fp,
    tree_at h l t fp -> height t <= steps ->
    exists l' fp', Mem.Unparen_loop steps l h = Some (l', h) /\
                   fp' ⊆ fp /\ tree_at h l' (Unparen t) fp'.
Proof.
  induction t using Expr_ind; intros [|steps] l fp Ht Hs; simpl in Hs; try lia;
    pose proof Ht as Ht'; invert Ht; simpl; unfold Mem.bind, Mem.load;
    match goal with H : h !! _ = Some _ |- _ => rewrite H end;
    try (by eexists _, _).
  destruct (IHt steps a fx) as (l' & fp' & Hrun & Hsub & Hl'); [done|lia|].
  exists l', fp'. split; [done|]. split; [set_solver|done].
Qed.

Lemma Unparen_tree h l t fp :
  tree_at h l t fp ->
  exists l' fp', Mem.Unparen (Some l) h = Some (Some l', h) /\
                 fp' ⊆ fp /\ tree_at h l' (Unparen t) fp'.
Proof.
  intros Ht.
  destruct (Unparen_loop_tree h t (length h) l fp Ht) as (l' & fp' & Hrun & ?);
    [by eapply tree_at_height|].
  exists l', fp'. split; [|done].
  unfold Mem.Unparen, Mem.bind, Mem.cells. by rewrite Hrun.
Qed.

Lemma unaryNot_tree h l t fp :
  tree_at h l t fp ->
  Mem.unaryNot (Some l) h = Some (if is_not t then Some l else None, h).
Proof.
  intros Ht. invert Ht; unfold Mem.unaryNot, Mem.bind, Mem.load;
    match goal with H : h !! _ = Some _ |- _ => rewrite H end; try done.
  by destruct op.
Qed.

Lemma binaryExpr_tree h l t fp :
  tree_at h l t fp ->
  Mem.binaryExpr (Some l) h = Some (if is_binary t then Some l else None, h).
Proof.
  intros Ht. invert Ht; unfold Mem.binaryExpr, Mem.bind, Mem.load;
    by match goal with H : h !! _ = Some _ |- _ => rewrite H end.
Qed.

(** ** What a rule leaves behind *)

Lemma replaced_same h parent name n t fp :
  slot h parent name n -> tree_at h n t fp -> replaced h parent name fp t h.
Proof.
  intros (c & Hc & Hg) Ht. split; [done|]. split; [done|].
  exists n, fp, c, c. split; [done|]. split; [done|]. split; [done|].
  split; [by apply set_field_same | done].
Qed.

Lemma wp_Replace h parent name n n' r fp fp' :
  slot h parent name n -> parent ∉ fp ->
  tree_at h n' r fp' -> fp' ⊆ fp ->
  wp (Mem.Replace (Mem.mkCursor parent name n) n') h
     (fun _ h' => replaced h parent name fp r h').
Proof.
  intros (c & Hc & Hg) Hp Ht Hsub.
  destruct (set_field_of_get c name n n' Hg) as [c' Hs].
  unfold Mem.Replace. simpl. eapply wp_assign; [done|done|].
  split; [by rewrite length_insert|]. split.
  - intros k _ Hk. by apply list_lookup_insert_ne.
  - exists n', fp', c, c'. split; [done|]. split.
    + apply tree_at_insert_other; [done|]. set_solver.
    + split; [done|]. split; [done|].
      apply list_lookup_insert_eq. by eapply lookup_lt_Some.
Qed.

(** ** The three rules on the store do what they do on trees *)

Lemma field_X_unary h l op a :
  h !! l = Some (Mem.CUnaryExpr op a) -> Mem.field_X (Some l) h = Some (Some a, h).
Proof.
  intros Hl. unfold Mem.field_X, Mem.read, Mem.bind, Mem.load. by rewrite Hl.
Qed.

Lemma doubleNegation_store h parent name n t fp :
  tree_at h n t fp -> slot h parent name n -> parent ∉ fp ->
  wp (Mem.doubleNegation (Mem.mkCursor parent name n)) h
     (rule_result h parent name fp (boolExprSimplify.doubleNegation t)).
Proof.
  intros Ht Hslot Hp. unfold Mem.doubleNegation. simpl.
  apply wp_bind. eapply wp_eq; [by eapply unaryNot_tree|].
  destruct (is_not t) eqn:Hn; simpl.
  2:{ repeat wp_step.
      replace (boolExprSimplify.doubleNegation t) with (@None Expr); [done|].
      unfold boolExprSimplify.doubleNegation.
      by rewrite unaryNot_is_not, Hn. }
  destruct t as [| | | | | | |op x1|]; try discriminate.
  destruct op; try discriminate. invert Ht.
  apply wp_bind. eapply wp_eq; [by eapply field_X_unary|].
  destruct (Unparen_tree h a x1 fx) as (u1 & fu1 & Hrun1 & Hsub1 & Hu1); [done|].
  apply wp_bind. eapply wp_eq; [done|].
  apply wp_bind. eapply wp_eq; [by eapply unaryNot_tree|].
  destruct (is_not (Unparen x1)) eqn:Hn1.
  2:{ wp_step. by rewrite doubleNegation_None_not. }
  destruct (Unparen x1) as [| | | | | | |op x2|] eqn:Ex1; try discriminate.
  destruct op; try discriminate. invert Hu1.
  apply wp_bind. eapply wp_eq; [by eapply field_X_unary|].
  destruct (Unparen_tree h a0 x2 fx0) as (u2 & fu2 & Hrun2 & Hsub2 & Hu2); [done|].
  apply wp_bind. eapply wp_eq; [done|].
  apply wp_bind. apply wp_ret.
  apply wp_bind. eapply wp_mono.
  { eapply wp_Replace with (fp := {[n]} ∪ fx); [done|done|done|set_solver]. }
  intros [] h' Hrep. apply wp_ret.
  replace (boolExprSimplify.doubleNegation (UnaryExpr NOT x1))
    with (Some (Unparen x2)); [done|].
  symmetry. apply doubleNegation_Some. eauto.
Qed.

(** A rule that rewrites the cursor's node in place. *)
Lemma replaced_in_place h parent name n (c' : Mem.cell) r fp fp' :
  slot h parent name n -> parent ∉ fp -> n ∈ fp ->
  tree_at (<[n := c']> h) n r fp' -> fp' ⊆ fp ->
  replaced h parent name fp r (<[n := c']> h).
Proof.
  intros (c & Hc & Hg) Hp Hn Ht Hsub.
  split; [by rewrite length_insert|]. split.
  - intros k Hk _. apply list_lookup_insert_ne. set_solver.
  - exists n, fp', c, c. split; [done|]. split; [done|]. split; [done|].
    split; [by apply set_field_same|].
    rewrite list_lookup_insert_ne; [done|]. set_solver.
Qed.

(** A rule that first rewrites a node of the tree, then replaces. *)
Lemma replaced_after_update h parent name u (c' : Mem.cell) r fp h' :
  replaced (<[u := c']> h) parent name fp r h' -> u ∈ fp -> parent ∉ fp ->
  replaced h parent name fp r h'.
Proof.
  intros (L & Hf & n' & fp' & c & c1 & Hsub & Ht & Hc & Hs & Hc') Hu Hp.
  assert (u <> parent) as Hne by set_solver.
  split; [by rewrite L, length_insert|]. split.
  - intros k Hk Hkp. rewrite Hf by done. apply list_lookup_insert_ne. set_solver.
  - exists n', fp', c, c1. rewrite list_lookup_insert_ne in Hc by done. done.
Qed.

Lemma negatedEquals_store h parent name n t fp :
  tree_at h n t fp -> slot h parent name n -> parent ∉ fp ->
  wp (Mem.negatedEquals (Mem.mkCursor parent name n)) h
     (rule_result h parent name fp (boolExprSimplify.negatedEquals t)).
Proof.
  intros Ht Hslot Hp. unfold Mem.negatedEquals. simpl.
  pose proof Ht as Ht'. invert Ht; wp_step; wp_step; simpl; try by wp_step.
  rename a into lx, b into ly.
  case_bool_decide as Hop; simpl; [subst op|by wp_step].
  apply wp_bind. eapply wp_eq; [by eapply unaryNot_tree|].
  apply wp_bind. eapply wp_eq; [by eapply unaryNot_tree|].
  destruct x as [| | | | | | |opx tx|]; simpl; try (by wp_step).
  destruct opx; simpl; try (by wp_step).
  destruct y as [| | | | | | |opy ty|]; simpl; try (by wp_step).
  destruct opy; simpl; try (by wp_step).
  invert H0. invert H1.
  assert (n < length h) as Hlt by (by eapply lookup_lt_Some).
  apply wp_bind. eapply wp_read; [done|done|].
  apply wp_bind. eapply wp_assign; [done|done|].
  apply wp_bind.
  eapply wp_read;
    [rewrite list_lookup_insert_ne; [eassumption|set_solver] | reflexivity |].
  apply wp_bind.
  eapply wp_assign; [by apply list_lookup_insert_eq | reflexivity |].
  apply wp_ret. rewrite list_insert_insert_eq. split; [done|].
  eapply replaced_in_place with (fp' := {[n]} ∪ (fx0 ∪ fx));
    [done|done|set_solver| |set_solver].
  econstructor.
  - by apply list_lookup_insert_eq.
  - apply tree_at_insert_other; [done|]. set_solver.
  - apply tree_at_insert_other; [done|]. set_solver.
  - set_solver.
  - set_solver.
Qed.

Lemma assign_Op_binary h u a op b op' Q :
  h !! u = Some (Mem.CBinaryExpr a op b) ->
  Q tt (<[u := Mem.CBinaryExpr a op' b]> h) ->
  wp (Mem.assign_Op u op') h Q.
Proof.
  intros Hu HQ. unfold Mem.assign_Op. apply wp_bind.
  eapply wp_load; [done|]. simpl. apply wp_store; [|done].
  by eapply lookup_lt_Some.
Qed.

Lemma slot_insert_other h parent name n u (c : Mem.cell) :
  slot h parent name n -> u <> parent -> slot (<[u := c]> h) parent name n.
Proof.
  intros (c0 & Hc & Hg) Hne. exists c0. by rewrite list_lookup_insert_ne.
Qed.

(** The inversion itself: [cmp.Op = op'; cur.Replace(cmp); return true]. *)
Lemma invert_store h parent name n u a op op' b ta tb fa fb fp :
  slot h parent name n -> parent ∉ fp -> u ∈ fp ->
  h !! u = Some (Mem.CBinaryExpr a op b) ->
  tree_at h a ta fa -> tree_at h b tb fb -> fa ## fb -> u ∉ fa ∪ fb ->
  {[u]} ∪ (fa ∪ fb) ⊆ fp ->
  wp (Mem.bind (Mem.assign_Op u op')
        (fun _ => Mem.bind (Mem.Replace (Mem.mkCursor parent name n) u)
                    (fun _ => Mem.ret true))) h
     (rule_result h parent name fp (Some (BinaryExpr ta op' tb))).
Proof.
  intros Hslot Hp Hu Hc Ha Hb Hd Hn Hsub.
  assert (u <> parent) as Hne by set_solver.
  apply wp_bind. eapply assign_Op_binary; [done|].
  apply wp_bind. eapply wp_mono.
  { eapply wp_Replace with (fp := fp) (fp' := {[u]} ∪ (fa ∪ fb));
      [by apply slot_insert_other|done| |done].
    eapply tree_Binary.
    - apply list_lookup_insert_eq. by eapply lookup_lt_Some.
    - apply tree_at_insert_other; [done|]. set_solver.
    - apply tree_at_insert_other; [done|]. set_solver.
    - done.
    - done. }
  intros [] h' Hrep. apply wp_ret. split; [done|].
  by eapply replaced_after_update.
Qed.

Lemma invertComparison_store h parent name n t fp :
  tree_at h n t fp -> slot h parent name n -> parent ∉ fp ->
  wp (Mem.invertComparison (Mem.mkCursor parent name n)) h
     (rule_result h parent name fp (boolExprSimplify.invertComparison t)).
Proof.
  intros Ht Hslot Hp. unfold Mem.invertComparison. simpl.
  apply wp_bind. eapply wp_eq; [by eapply unaryNot_tree|].
  destruct (is_not t) eqn:Hn; simpl.
  2:{ repeat wp_step.
      replace (boolExprSimplify.invertComparison t) with (@None Expr); [done|].
      unfold boolExprSimplify.invertComparison.
      by rewrite unaryNot_is_not, Hn. }
  destruct t as [| | | | | | |op x|]; try discriminate.
  destruct op; try discriminate. invert Ht.
  apply wp_bind. eapply wp_eq; [by eapply field_X_unary|].
  destruct (Unparen_tree h a x fx) as (u & fu & Hrun & Hsub & Hu); [done|].
  apply wp_bind. eapply wp_eq; [done|].
  apply wp_bind. eapply wp_eq; [by eapply binaryExpr_tree|].
  destruct (Unparen x) as [| | | | | | | |ta op tb] eqn:Ex; simpl;
    try (wp_step; rewrite invertComparison_None_other; [done|];
         intros ? ? ?; by rewrite Ex).
  rewrite (invertComparison_not x ta tb op Ex).
  invert Hu. wp_step. wp_step. simpl.
  destruct op; simpl; try (by wp_step);
    (eapply invert_store; [done|done|set_solver|done|done|done|done|done|set_solver]).
Qed.

Lemma post_store h parent name n t fp :
  tree_at h n t fp -> slot h parent name n -> parent ∉ fp ->
  wp (Mem.post (Mem.mkCursor parent name n)) h
     (fun b h' => b = true /\
                  replaced h parent name fp (boolExprSimplify.post t) h').
Proof.
  intros Ht Hslot Hp. unfold Mem.post, boolExprSimplify.post.
  apply wp_bind. eapply wp_mono; [by apply doubleNegation_store|].
  intros b1 h1 H1. unfold rule_result in H1.
  destruct (boolExprSimplify.doubleNegation t) as [r|];
    destruct H1 as [-> H1]; [by apply wp_ret|subst h1].
  apply wp_bind. eapply wp_mono; [by apply negatedEquals_store|].
  intros b2 h2 H2. unfold rule_result in H2.
  destruct (boolExprSimplify.negatedEquals t) as [r|];
    destruct H2 as [-> H2]; [by apply wp_ret|subst h2].
  apply wp_bind. eapply wp_mono; [by apply invertComparison_store|].
  intros b3 h3 H3. unfold rule_result in H3.
  destruct (boolExprSimplify.invertComparison t) as [r|];
    destruct H3 as [-> H3]; [by apply wp_ret|subst h3].
  apply wp_ret. split; [done|]. by eapply replaced_same.
Qed.

(** ** The walk of [astutil.Apply] computes [simplifyBool] *)

Lemma replaced_weaken h h1 h2 parent name r fp fp1 :
  changed_within h fp h1 -> replaced h1 parent name fp1 r h2 ->
  fp1 ⊆ fp -> parent ∉ fp ->
  replaced h parent name fp r h2.
Proof.
  intros [L1 F1] (L2 & F2 & n' & fp' & c & c' & Hsub & Ht & Hc & Hs & Hc') Hfp Hp.
  split; [lia|]. split.
  - intros k Hk Hkp. rewrite F2 by set_solver. by apply F1.
  - exists n', fp', c, c'. rewrite F1 in Hc by done.
    split; [set_solver|done].
Qed.

(** After the children of [n] have been walked, [post] runs on [n]. *)
Lemma apply_finish h h1 parent name n t' fp fp1 :
  changed_within h fp h1 -> tree_at h1 n t' fp1 -> fp1 ⊆ fp ->
  slot h parent name n -> parent ∉ fp ->
  wp (Mem.bind (Mem.post (Mem.mkCursor parent name n))
        (fun ok : bool => if ok then Mem.ret tt else Mem.fail)) h1
     (fun _ h' => replaced h parent name fp (boolExprSimplify.post t') h').
Proof.
  intros Hch Ht Hsub (c & Hc & Hg) Hp.
  apply wp_bind. eapply wp_mono.
  { eapply post_store; [done| |set_solver].
    exists c. by rewrite (proj2 Hch). }
  intros b h2 [-> Hrep]. apply wp_ret. by eapply replaced_weaken.
Qed.

Lemma child_store fuel t h n c f lx fx :
  apply_ok fuel t ->
  h !! n = Some c -> Mem.get_field c f = Some lx ->
  tree_at h lx t fx -> n ∉ fx -> height t <= fuel ->
  wp (Mem.bind (Mem.read n f) (fun x => Mem.apply fuel n f x)) h
     (fun _ h' => child_done h n c f fx t h').
Proof.
  intros IH Hn Hg Ht Hnfx Hfuel.
  apply wp_bind. eapply wp_read; [done|done|].
  eapply wp_mono; [eapply IH; [done|done|by exists c|done]|].
  intros _ h' (L & F & lx' & fx' & c0 & c' & Hsub & Ht' & Hc0 & Hs & Hc').
  assert (c0 = c) as -> by congruence.
  split.
  - split; [done|]. intros k Hk. apply F; set_solver.
  - by exists lx', fx', c'.
Qed.

Lemma changed_within_refl h fp : changed_within h fp h.
Proof. by split. Qed.

Lemma changed_within_trans h h1 h2 fp fp1 fp2 :
  changed_within h fp1 h1 -> changed_within h1 fp2 h2 ->
  fp1 ⊆ fp -> fp2 ⊆ fp -> changed_within h fp h2.
Proof.
  intros [L1 F1] [L2 F2] H1 H2. split; [lia|].
  intros k Hk. rewrite F2 by set_solver. apply F1. set_solver.
Qed.

Lemma changed_within_tree h fp h' l t ft :
  changed_within h fp h' -> tree_at h l t ft -> ft ## fp -> tree_at h' l t ft.
Proof.
  intros [_ F] Ht Hd. eapply tree_at_frame; [done|].
  intros k Hk. apply F. set_solver.
Qed.

Lemma changed_within_trees h fp h' ls ts ft :
  changed_within h fp h' -> trees_at h ls ts ft -> ft ## fp -> trees_at h' ls ts ft.
Proof.
  intros [_ F] Ht Hd. eapply trees_at_frame; [done|].
  intros k Hk. apply F. set_solver.
Qed.

Lemma apply_store_leaf h n t fp parent name :
  tree_at h n t fp -> slot h parent name n -> parent ∉ fp ->
  wp (Mem.bind (Mem.ret tt)
        (fun _ => Mem.bind (Mem.post (Mem.mkCursor parent name n))
                    (fun ok : bool => if ok then Mem.ret tt else Mem.fail))) h
     (fun _ h' => replaced h parent name fp (boolExprSimplify.post t) h').
Proof.
  intros Ht Hs Hp. apply wp_bind, wp_ret.
  eapply apply_finish; [apply changed_within_refl|done|done|done|done].
Qed.

(** A node with one child: the child is walked, then [post] runs. *)
Ltac walk_one IH :=
  apply wp_bind; eapply wp_mono;
  [ eapply child_store; [apply IH|eassumption|reflexivity|eassumption|assumption|lia]
  | let Hch := fresh "Hch" in
    let Hsub := fresh "Hsub" in
    let Hx := fresh "Hx" in
    let Hset := fresh "Hset" in
    let Hn := fresh "Hn" in
    intros _ ? (Hch & ? & ? & ? & Hsub & Hx & Hset & Hn);
    simpl in Hset; injection Hset as <-;
    eapply apply_finish;
    [ exact Hch
    | econstructor; [exact Hn|exact Hx|set_solver]
    | set_solver
    | assumption
    | assumption ] ].

(** A node with two children, walked in field order. *)
Ltac walk_two IH1 IH2 :=
  apply wp_bind; apply wp_bind; eapply wp_mono;
  [ eapply child_store; [apply IH1|eassumption|reflexivity|eassumption|set_solver|lia]
  | let Hch1 := fresh "Hch" in
    let Hsub1 := fresh "Hsub" in
    let Hx := fresh "Hx" in
    let Hset1 := fresh "Hset" in
    let Hn1 := fresh "Hn" in
    intros _ ? (Hch1 & ? & ? & ? & Hsub1 & Hx & Hset1 & Hn1);
    simpl in Hset1; injection Hset1 as <-;
    eapply wp_mono;
    [ eapply child_store;
      [ apply IH2
      | exact Hn1
      | reflexivity
      | eapply changed_within_tree; [exact Hch1|eassumption|set_solver]
      | set_solver
      | lia ]
    | let Hch2 := fresh "Hch" in
      let Hsub2 := fresh "Hsub" in
      let Hy := fresh "Hy" in
      let Hset2 := fresh "Hset" in
      let Hn2 := fresh "Hn" in
      intros _ ? (Hch2 & ? & ? & ? & Hsub2 & Hy & Hset2 & Hn2);
      simpl in Hset2; injection Hset2 as <-;
      eapply apply_finish;
      [ eapply changed_within_trans; [exact Hch1|exact Hch2| |]; set_solver
      | econstructor;
        [ exact Hn2
        | eapply changed_within_tree; [exact Hch2|exact Hx|set_solver]
        | exact Hy
        | set_solver
        | set_solver ]
      | set_solver
      | assumption
      | assumption ] ] ].

(** The loop over [Args]: [done] are the arguments already walked. *)
Lemma applyList_store fuel n lf :
  forall trest, Forall (apply_ok fuel) trest ->
  forall h done rest frest,
    trees_at h rest trest frest ->
    h !! n = Some (Mem.CCallExpr lf (done ++ rest)) ->
    n ∉ frest ->
    foldr (fun a => Nat.max (height a)) 0 trest <= fuel ->
    wp (Mem.applyList
          (fun f0 => Mem.bind (Mem.read n f0) (fun x => Mem.apply fuel n f0 x))
          (length rest) (length done)) h
       (fun _ h' =>
          changed_within h ({[n]} ∪ frest) h' /\
          exists rest' frest',
            frest' ⊆ frest /\
            h' !! n = Some (Mem.CCallExpr lf (done ++ rest')) /\
            trees_at h' rest' (map boolExprSimplify.simplifyBool trest) frest').
Proof.
  induction 1 as [|t ts Ht _ IH]; intros h done rest frest Hts Hn Hnf Hfuel;
    invert Hts; simpl.
  { apply wp_ret. split; [apply changed_within_refl|].
    exists [], ∅. split; [done|]. split; [done|constructor]. }
  simpl in Hfuel. apply wp_bind. eapply wp_mono.
  { eapply child_store; [exact Ht|exact Hn| |eassumption|set_solver|lia].
    simpl. by apply list_lookup_middle. }
  intros _ h1 (Hch1 & l' & f' & c' & Hsub1 & Hl' & Hset & Hn1).
  simpl in Hset. rewrite decide_True in Hset
    by (rewrite length_app; simpl; lia).
  injection Hset as <-.
  rewrite insert_app_r_alt, Nat.sub_diag in Hn1 by lia. simpl in Hn1.
  replace (S (length done)) with (length (done ++ [l']))
    by (rewrite length_app; simpl; lia).
  eapply wp_mono.
  { eapply (IH h1 (done ++ [l']) ls fs).
    - eapply changed_within_trees; [exact Hch1|eassumption|set_solver].
    - by rewrite <- app_assoc.
    - set_solver.
    - lia. }
  intros _ h2 (Hch2 & rest' & frest' & Hsub2 & Hn2 & Hrest).
  split.
  { eapply changed_within_trans; [exact Hch1|exact Hch2| |]; set_solver. }
  exists (l' :: rest'), (f' ∪ frest'). split; [set_solver|]. split.
  - by rewrite <- app_assoc in Hn2.
  - constructor; [|done|set_solver].
    eapply changed_within_tree; [exact Hch2|exact Hl'|set_solver].
Qed.

Lemma apply_store : forall t fuel, apply_ok fuel t.
Proof.
  induction t using Expr_ind; intros [|fuel] h n fp parent name Ht Hfuel Hs Hp;
    simpl in Hfuel; try lia; pose proof Ht as Ht'; invert Ht; simpl;
    apply wp_bind; (eapply wp_load; [eassumption|]); simpl.
  - by apply apply_store_leaf.
  - by apply apply_store_leaf.
  - walk_one IHt.
  - walk_one IHt.
  - walk_two IHt1 IHt2.
  - (* CallExpr *)
    apply wp_bind. apply wp_bind. eapply wp_mono.
    { eapply child_store; [apply IHt|eassumption|reflexivity|eassumption|set_solver|lia]. }
    intros _ h1 (Hch1 & lf' & ff' & c' & Hsub1 & Hf & Hset & Hn1).
    simpl in Hset. injection Hset as <-.
    eapply wp_mono.
    { eapply (applyList_store fuel n lf' args) with (done := []).
      - eapply Forall_impl; [eassumption|]. intros t' Ht'0. apply Ht'0.
      - eapply changed_within_trees; [exact Hch1|eassumption|set_solver].
      - exact Hn1.
      - set_solver.
      - lia. }
    intros _ h2 (Hch2 & rest' & frest' & Hsub2 & Hn2 & Hrest).
    eapply apply_finish.
    + eapply changed_within_trans; [exact Hch1|exact Hch2| |]; set_solver.
    + econstructor.
      * exact Hn2.
      * eapply changed_within_tree; [exact Hch2|exact Hf|set_solver].
      * exact Hrest.
      * set_solver.
      * set_solver.
    + set_solver.
    + assumption.
    + assumption.
  - walk_one IHt.
  - walk_one IHt.
  - walk_two IHt1 IHt2.
Qed.

Lemma Apply_store h x t fp :
  tree_at h x t fp ->
  wp (Mem.Apply x) h
     (fun y h' =>
        length h' = S (length h) /\
        (forall k, k ∉ fp -> k < length h -> h' !! k = h !! k) /\
        exists fy, fy ⊆ fp /\ tree_at h' y (boolExprSimplify.simplifyBool t) fy).
Proof.
  intros Ht. unfold Mem.Apply.
  assert (length h ∉ fp) as Hp.
  { intros Hk. eapply tree_at_dom in Hk; [|done]. lia. }
  apply wp_bind, wp_alloc. apply wp_bind, wp_cells.
  apply wp_bind. eapply wp_mono.
  { eapply (apply_store t _ (h ++ [Mem.CRoot x]) x fp (length h) Mem.FNode).
    - eapply tree_at_extends; [apply extends_app|done].
    - rewrite length_app. simpl. pose proof (tree_at_height h x t fp Ht). lia.
    - exists (Mem.CRoot x). split; [apply lookup_alloc|done].
    - done. }
  intros _ h2 (L & F & n' & fp' & c & c' & Hsub & Ht' & Hc & Hset & Hc').
  rewrite lookup_alloc in Hc. injection Hc as <-.
  simpl in Hset. injection Hset as <-.
  eapply wp_read; [done|done|].
  rewrite length_app in L. simpl in L.
  split; [lia|]. split; [|eauto].
  intros k Hk Hlt. rewrite F by (done || lia). by apply lookup_app_l.
Qed.

Lemma VisitExpr_store c h x t fp :
  tree_at h x t fp -> wp (Mem.VisitExpr c x) h (visited c x t h).
Proof.
  intros Ht. unfold Mem.VisitExpr, Mem.astcopy_Expr, Mem.simplifyBool.
  apply wp_bind. apply wp_bind, wp_cells. eapply wp_mono.
  { eapply copyExpr_tree; [done|]. by eapply tree_at_height. }
  intros x' h1 (He1 & fp' & Hx' & Hr).
  apply wp_bind. eapply wp_mono; [by eapply Apply_store|].
  intros y h2 (L2 & F2 & fy & Hsub & Hy).
  assert (extends h h2) as He2.
  { destruct He1 as [L1 E1]. split; [lia|]. intros k Hk.
    rewrite F2; [by apply E1| |lia]. intros Hk'%Hr. lia. }
  pose proof (tree_at_extends h h2 x t fp He2 Ht) as Hx2.
  apply wp_bind. eapply wp_eq.
  { unfold Mem.astequal_Expr.
    rewrite (astExprEq_tree h2 t (length h2) x y _ fp fy Hx2 Hy); [done|].
    by eapply tree_at_height. }
  assert (visited c x t h
            (if astequal_Expr t (boolExprSimplify.simplifyBool t) then c
             else Mem.warn c x y) h2) as Hv.
  { split; [done|]. exists y, fy. split; [done|]. split; [|done].
    intros k Hk. apply Hr. set_solver. }
  destruct (astequal_Expr t (boolExprSimplify.simplifyBool t)); simpl;
    by apply wp_ret.
Qed.

End Store.

(* ===================================================================== *)
(** * The boolExprSimplify checker on the store                           *)
(* ===================================================================== *)

Lemma example_tree_at : tree_at example_store 6%nat example_tree example_footprint.
Proof.
  unfold example_store, example_tree, example_footprint.
  repeat (econstructor; try reflexivity); by_decide.
Defined.

Section Visit.

Local Open Scope nat_scope.

(** C5.  On a well-formed tree [t] at [x], [VisitExpr] returns.  It sends
    a warning exactly when [t] and the result of one pass over its copy
    differ for [astequal.Expr], which is the strict equality: it holds
    only when the two trees are the same, parentheses included.  The
    warning is for [x] and carries [x] and the node [y], the root of
    [simplifyBool t]: the result of that one pass, which is not simplified
    again. *)
Theorem VisitExpr_warns_iff_changed (c : Mem.boolExprSimplifyChecker)
    (h : list Mem.cell) (x : Mem.loc) (t : Expr) (fp : gset Mem.loc) :
  tree_at h x t fp ->
  exists c' h' y fy,
    Mem.VisitExpr c x h = Some (c', h') /\
    tree_at h' x t fp /\
    tree_at h' y (boolExprSimplify.simplifyBool t) fy /\
    (astequal_Expr t (boolExprSimplify.simplifyBool t) = true <->
     t = boolExprSimplify.simplifyBool t) /\
    Mem.reports c' =
      if astequal_Expr t (boolExprSimplify.simplifyBool t) then Mem.reports c
      else Mem.reports c ++ [Mem.mkReport x "can simplify `%s` to `%s`" [x; y]].
Proof.
  intros Ht.
  destruct (VisitExpr_store c h x t fp Ht)
    as (c' & h' & Hrun & He & y & fy & Hy & _ & ->).
  eexists _, h', y, fy. split; [exact Hrun|].
  split; [by eapply tree_at_extends|]. split; [done|].
  split; [apply astequal_Expr_eq|].
  by destruct (astequal_Expr t (boolExprSimplify.simplifyBool t)).
Qed.

Lemma VisitExpr_warns_iff_changed_witness :
  exists c' h' y fy,
    Mem.VisitExpr Mem.Init 6 example_store = Some (c', h') /\
    tree_at h' 6 example_tree example_footprint /\
    tree_at h' y
      (BinaryExpr (UnaryExpr NOT (Ident "a")) EQL (UnaryExpr NOT (Ident "b"))) fy /\
    (astequal_Expr example_tree (boolExprSimplify.simplifyBool example_tree) = true <->
     example_tree = boolExprSimplify.simplifyBool example_tree) /\
    Mem.reports c' = [Mem.mkReport 6 "can simplify `%s` to `%s`" [6; y]].
Proof.
  exact (VisitExpr_warns_iff_changed Mem.Init example_store 6 example_tree
           example_footprint example_tree_at).
Defined.

(** C9.  On a well-formed tree at [x], [VisitExpr] returns and every cell
    the store had before the call is unchanged after it: the rules wrote
    only into cells that [astcopy.Expr] and [astutil.Apply] allocated
    during the call, and [x] is still the root of the same tree. *)
Theorem VisitExpr_preserves_original (c : Mem.boolExprSimplifyChecker)
    (h : list Mem.cell) (x : Mem.loc) (t : Expr) (fp : gset Mem.loc) :
  tree_at h x t fp ->
  exists c' h',
    Mem.VisitExpr c x h = Some (c', h') /\
    length h <= length h' /\
    (forall k, k < length h -> h' !! k = h !! k) /\
    tree_at h' x t fp.
Proof.
  intros Ht.
  destruct (VisitExpr_store c h x t fp Ht) as (c' & h' & Hrun & He & _).
  exists c', h'. split; [exact Hrun|]. split; [apply He|].
  split; [apply He|]. by eapply tree_at_extends.
Qed.

Lemma VisitExpr_preserves_original_witness :
  exists c' h',
    Mem.VisitExpr Mem.Init 6 example_store = Some (c', h') /\
    length example_store <= length h' /\
    (forall k, k < length example_store -> h' !! k = example_store !! k) /\
    tree_at h' 6 example_tree example_footprint.
Proof.
  exact (VisitExpr_preserves_original Mem.Init example_store 6 example_tree
           example_footprint example_tree_at).
Defined.

End Visit.

(* ===================================================================== *)
(** * The traversal                                                       *)
(* ===================================================================== *)


Section Traversal.

Local Open Scope nat_scope.

Lemma walked_refl c fp h : walked c fp h c h.
Proof.
  split; [apply extends_refl|]. exists []. rewrite app_nil_r.
  split; [done|]. split; [constructor|]. by intros r ?%elem_of_nil.
Qed.

Lemma walked_weaken c fp fp' h c' h' :
  walked c fp h c' h' -> fp ⊆ fp' -> walked c fp' h c' h'.
Proof.
  intros (He & new & Hr & Hnd & Hin) Hsub. split; [done|].
  exists new. split; [done|]. split; [done|]. intros r Hr'. apply Hsub. auto.
Qed.

Lemma walked_trans c c1 c2 fp1 fp2 h h1 h2 :
  walked c fp1 h c1 h1 -> walked c1 fp2 h1 c2 h2 -> fp1 ## fp2 ->
  walked c (fp1 ∪ fp2) h c2 h2.
Proof.
  intros (He1 & new1 & Hr1 & Hnd1 & Hin1) (He2 & new2 & Hr2 & Hnd2 & Hin2) Hd.
  split; [by eapply extends_trans|].
  exists (new1 ++ new2). split; [by rewrite Hr2, Hr1, app_assoc|]. split.
  - rewrite fmap_app. apply NoDup_app. split; [done|]. split; [|done].
    intros k (r1 & -> & Hr1')%list_elem_of_fmap (r2 & Heq & Hr2')%list_elem_of_fmap.
    apply Hin1 in Hr1'. apply Hin2 in Hr2'. rewrite Heq in Hr1'. set_solver.
  - intros r [Hr'|Hr']%elem_of_app; set_solver.
Qed.

Lemma walkList_store fuel :
  forall ts, Forall (walk_ok fuel) ts ->
  forall c h ls fs,
    trees_at h ls ts fs ->
    foldr (fun a => Nat.max (height a)) 0 ts <= fuel ->
    wp (Driver.walkList (Driver.walk fuel) c ls) h (walked c fs h).
Proof.
  induction 1 as [|t ts Ht _ IH]; intros c h ls fs Hts Hfuel; invert Hts; simpl.
  { apply wp_ret, walked_refl. }
  simpl in Hfuel. apply wp_bind. eapply wp_mono; [eapply Ht; [done|lia]|].
  intros c1 h1 [Hw1 _]. eapply wp_mono.
  { eapply IH; [|lia]. eapply trees_at_extends; [apply Hw1|done]. }
  intros c2 h2 Hw2. eapply walked_trans; [done| |done].
  destruct Hw2 as (He2 & Hrest). split; [done|exact Hrest].
Qed.

Lemma height_subexprs t :
  height t = S (foldr (fun a => Nat.max (height a)) 0 (subexprs t)).
Proof. destruct t; simpl; lia. Qed.

Lemma tree_at_children h x t fp :
  tree_at h x t fp ->
  exists cell fs,
    h !! x = Some cell /\
    trees_at h (Driver.children cell) (subexprs t) fs /\ fs ⊆ fp.
Proof.
  intros Ht. invert Ht; eexists _, _; (split; [eassumption|]); simpl;
    (split;
     [ repeat match goal with
              | |- trees_at _ [] [] _ => apply trees_nil
              | |- trees_at _ (_ :: _) (_ :: _) _ => eapply trees_cons
              | |- tree_at _ _ _ _ => eassumption
              | |- trees_at _ _ _ _ => eassumption
              end
     | ]); set_solver.
Qed.

Lemma walk_store : forall fuel t, walk_ok fuel t.
Proof.
  induction fuel as [|fuel IH]; intros t c h x fp Ht Hfuel.
  { destruct t; simpl in Hfuel; lia. }
  simpl. apply wp_bind. eapply wp_mono; [by eapply VisitExpr_store|].
  intros c1 h1 (He & y & fy & Hy & Hr & ->).
  destruct (astequal_Expr t (boolExprSimplify.simplifyBool t)) eqn:E.
  - destruct (Mem.EnterChilds c x).
    + destruct (tree_at_children h x t fp Ht) as (cell & fs & Hx & Hts & Hsub).
      apply wp_bind. eapply wp_load; [by rewrite (proj2 He) by (by eapply lookup_lt_Some)|].
      eapply wp_mono.
      { eapply walkList_store.
        - apply Forall_forall. intros t' _. apply IH.
        - by eapply trees_at_extends.
        - rewrite height_subexprs in Hfuel. lia. }
      intros c' h' (He' & Hnew). split; [|done].
      eapply walked_weaken; [|exact Hsub].
      split; [by eapply extends_trans|exact Hnew].
    + apply wp_ret. split; [|done].
      split; [done|]. exists []. rewrite app_nil_r. split; [done|].
      split; [constructor|]. by intros r ?%elem_of_nil.
  - unfold Mem.EnterChilds, Mem.warn. simpl.
    rewrite bool_decide_eq_true_2 by done. simpl. apply wp_ret. split.
    + split; [done|]. eexists. split; [done|]. split.
      * simpl. apply NoDup_singleton.
      * intros r ->%list_elem_of_singleton. simpl. by eapply tree_at_root.
    + intros _. by exists y.
Qed.

End Traversal.

Section ReEntrancy.

Local Open Scope nat_scope.

(** C6.  [EnterChilds] answers [false] for exactly one node, the cause of
    the most recent warning, and [true] for every other node (for every
    node before the first warning): [warn] records its node as the cause
    and as the last report.  A call of [VisitExpr] on [x] that warns
    leaves [x] as that node; one that does not warn leaves the checker as
    it was.  In a traversal that asks [EnterChilds] after each visit, no
    node is warned twice, and when the root of a subtree gets a warning it
    is the only one in that subtree. *)
Theorem EnterChilds_last_cause :
  (forall (c : Mem.boolExprSimplifyChecker) (n : Mem.loc),
      Mem.EnterChilds c n = false <-> Mem.cause c = Some n) /\
  (forall n : Mem.loc, Mem.EnterChilds Mem.Init n = true) /\
  (forall (c : Mem.boolExprSimplifyChecker) (x y : Mem.loc),
      Mem.cause (Mem.warn c x y) = Some x /\
      Mem.rep_node <$> last (Mem.reports (Mem.warn c x y)) = Some x) /\
  (forall (c : Mem.boolExprSimplifyChecker) (h : list Mem.cell) (x : Mem.loc)
          (t : Expr) (fp : gset Mem.loc),
      tree_at h x t fp ->
      exists c' h',
        Mem.VisitExpr c x h = Some (c', h') /\
        if astequal_Expr t (boolExprSimplify.simplifyBool t) then c' = c
        else Mem.EnterChilds c' x = false /\
             forall n, n <> x -> Mem.EnterChilds c' n = true) /\
  (forall (fuel : nat) (c : Mem.boolExprSimplifyChecker) (h : list Mem.cell)
          (x : Mem.loc) (t : Expr) (fp : gset Mem.loc),
      tree_at h x t fp -> height t <= fuel ->
      exists c' h' new,
        Driver.walk fuel c x h = Some (c', h') /\
        Mem.reports c' = Mem.reports c ++ new /\
        NoDup (Mem.rep_node <$> new) /\
        (astequal_Expr t (boolExprSimplify.simplifyBool t) = false ->
         Mem.rep_node <$> new = [x])).
Proof.
  split; [|split; [|split; [|split]]].
  - intros c n. unfold Mem.EnterChilds. rewrite negb_false_iff.
    apply bool_decide_eq_true.
  - intros n. reflexivity.
  - intros c x y. split; [reflexivity|]. unfold Mem.warn. simpl.
    by rewrite last_snoc.
  - intros c h x t fp Ht.
    destruct (VisitExpr_store c h x t fp Ht)
      as (c' & h' & Hrun & He & y & fy & Hy & _ & ->).
    eexists _, h'. split; [exact Hrun|].
    destruct (astequal_Expr t (boolExprSimplify.simplifyBool t)); [done|].
    unfold Mem.EnterChilds, Mem.warn. simpl. split.
    + by rewrite bool_decide_eq_true_2.
    + intros n Hn. rewrite bool_decide_eq_false_2; [done|]. congruence.
  - intros fuel c h x t fp Ht Hfuel.
    destruct (walk_store fuel t c h x fp Ht Hfuel)
      as (c' & h' & Hrun & (He & new & Hr & Hnd & Hin) & Hroot).
    exists c', h', new. split; [exact Hrun|]. split; [done|]. split; [done|].
    intros E. destruct (Hroot E) as [y Hy]. rewrite Hr in Hy.
    apply app_inv_head in Hy. by rewrite Hy.
Qed.

Lemma EnterChilds_last_cause_witness :
  (exists c' h',
      Mem.VisitExpr Mem.Init 6 example_store = Some (c', h') /\
      Mem.EnterChilds c' 6 = false /\
      forall n, n <> 6 -> Mem.EnterChilds c' n = true) /\
  (exists c' h' new,
      Driver.walk 7 Mem.Init 6 example_store = Some (c', h') /\
      Mem.reports c' = new /\
      NoDup (Mem.rep_node <$> new) /\
      Mem.rep_node <$> new = [6]).
Proof.
  split.
  - exact (proj1 (proj2 (proj2 (proj2 EnterChilds_last_cause)))
             Mem.Init example_store 6 example_tree example_footprint
             example_tree_at).
  - assert (height example_tree <= 7) as Hfuel by (vm_compute; lia).
    destruct (proj2 (proj2 (proj2 (proj2 EnterChilds_last_cause)))
                7 Mem.Init example_store 6 example_tree example_footprint
                example_tree_at Hfuel)
      as (c' & h' & new & Hrun & Hr & Hnd & Hroot).
    exists c', h', new. split; [exact Hrun|]. split; [exact Hr|].
    split; [exact Hnd|]. apply Hroot. reflexivity.
Defined.

End ReEntrancy.

(* ===================================================================== *)
(** * Further properties                                                  *)
(* ===================================================================== *)

Section Further.

Local Open Scope nat_scope.

Lemma post_rule_free (t : Expr) :
  fired (boolExprSimplify.doubleNegation t) = false ->
  fired (boolExprSimplify.negatedEquals t) = false ->
  fired (boolExprSimplify.invertComparison t) = false ->
  boolExprSimplify.post t = t.
Proof.
  unfold boolExprSimplify.post.
  destruct (boolExprSimplify.doubleNegation t); [discriminate|].
  destruct (boolExprSimplify.negatedEquals t); [discriminate|].
  by destruct (boolExprSimplify.invertComparison t).
Qed.

(** On a tree in which no rule fires at any node, one pass changes
    nothing. *)
Theorem simplifyBool_rule_free (t : Expr) :
  rule_free t = true -> boolExprSimplify.simplifyBool t = t.
Proof.
  induction t using Expr_ind; intros Hf; simpl in Hf;
    repeat match goal with
           | H : _ && _ = true |- _ => apply andb_true_iff in H as [? ?]
           | H : negb _ = true |- _ => apply negb_true_iff in H
           end;
    cbn [boolExprSimplify.simplifyBool];
    rewrite ?IHt, ?IHt1, ?IHt2 by done;
    try (by apply post_rule_free).
  replace (map boolExprSimplify.simplifyBool args) with args;
    [by apply post_rule_free|].
  match goal with Hall : forallb _ _ = true |- _ => revert Hall end.
  induction H as [|a args Ha _ IH]; simpl; [done|].
  intros [? ?]%andb_true_iff. by rewrite Ha, <- IH.
Qed.

Lemma simplifyBool_rule_free_witness :
  boolExprSimplify.simplifyBool
    (BinaryExpr (ParenExpr (Ident "a")) LAND (UnaryExpr NOT (Ident "b"))) =
  BinaryExpr (ParenExpr (Ident "a")) LAND (UnaryExpr NOT (Ident "b")).
Proof.
  apply (simplifyBool_rule_free
           (BinaryExpr (ParenExpr (Ident "a")) LAND (UnaryExpr NOT (Ident "b")))).
  reflexivity.
Defined.

(** On the store, [simplifyBool] returns and leaves at its result the
    tree that the tree-level pass computes, made of cells of the tree it
    was given. *)
Theorem simplifyBool_store_refines (h : list Mem.cell) (x : Mem.loc) (t : Expr)
    (fp : gset Mem.loc) :
  tree_at h x t fp ->
  exists y h' fy,
    Mem.simplifyBool x h = Some (y, h') /\
    tree_at h' y (boolExprSimplify.simplifyBool t) fy /\ fy ⊆ fp.
Proof.
  intros Ht.
  destruct (Apply_store h x t fp Ht) as (y & h' & Hrun & _ & _ & fy & Hsub & Hy).
  by exists y, h', fy.
Qed.

Lemma simplifyBool_store_refines_witness :
  exists y h' fy,
    Mem.simplifyBool 6 example_store = Some (y, h') /\
    tree_at h' y
      (BinaryExpr (UnaryExpr NOT (Ident "a")) EQL (UnaryExpr NOT (Ident "b"))) fy /\
    fy ⊆ example_footprint.
Proof.
  exact (simplifyBool_store_refines example_store 6 example_tree
           example_footprint example_tree_at).
Defined.

(** [astcopy.Expr] returns, leaves every cell it found, and its result is
    the root of the same tree, built from cells that are all new. *)
Theorem astcopy_Expr_fresh (h : list Mem.cell) (x : Mem.loc) (t : Expr)
    (fp : gset Mem.loc) :
  tree_at h x t fp ->
  exists x' h' fp',
    Mem.astcopy_Expr x h = Some (x', h') /\
    (forall k, k < length h -> h' !! k = h !! k) /\
    tree_at h' x' t fp' /\ fp' ## fp.
Proof.
  intros Ht.
  destruct (copyExpr_tree t (length h) h x fp Ht) as
    (x' & h' & Hrun & He & fp' & Hx' & Hr); [by eapply tree_at_height|].
  exists x', h', fp'. split; [exact Hrun|]. split; [apply He|]. split; [done|].
  intros k Hk' Hk. apply Hr in Hk'. eapply tree_at_dom in Hk; [|done]. lia.
Qed.

Lemma astcopy_Expr_fresh_witness :
  exists x' h' fp',
    Mem.astcopy_Expr 6 example_store = Some (x', h') /\
    (forall k, k < length example_store -> h' !! k = example_store !! k) /\
    tree_at h' x' example_tree fp' /\ fp' ## example_footprint.
Proof.
  exact (astcopy_Expr_fresh example_store 6 example_tree example_footprint
           example_tree_at).
Defined.

End Further.

(* ===================================================================== *)
(** * One pass of the rewrite: what it keeps and what it removes           *)
(* ===================================================================== *)

Section Pass.

Import boolExprSimplify.

Local Open Scope nat_scope.

Lemma invertComparison_Some (cur r : Expr) :
  invertComparison cur = Some r <->
  exists x a op op' b,
    cur = UnaryExpr NOT x /\ Unparen x = BinaryExpr a op b /\
    inverted op = Some op' /\ r = BinaryExpr a op' b.
Proof.
  split.
  - unfold invertComparison.
    destruct cur as [| | | | | | |o x|]; simpl; try discriminate.
    case_bool_decide; [subst|discriminate]. simpl.
    destruct (Unparen x) as [| | | | | | | |a op b] eqn:E; simpl; try discriminate.
    intros Hr. exists x, a, op.
    destruct op; try discriminate; injection Hr as <-; eauto 10.
  - intros (x & a & op & op' & b & -> & E & Hi & ->).
    rewrite (invertComparison_not x a b op E), Hi. reflexivity.
Qed.

(** What [post] does at a node: nothing, or one of the three rewrites. *)
Lemma post_cases (t : Expr) :
  (post t = t /\ doubleNegation t = None /\ negatedEquals t = None /\
   invertComparison t = None) \/
  (exists x1 x2, t = UnaryExpr NOT x1 /\ Unparen x1 = UnaryExpr NOT x2 /\
                 post t = Unparen x2) \/
  (exists a b, t = BinaryExpr (UnaryExpr NOT a) EQL (UnaryExpr NOT b) /\
               post t = BinaryExpr a EQL b) \/
  (exists x a op op' b, t = UnaryExpr NOT x /\ Unparen x = BinaryExpr a op b /\
                        inverted op = Some op' /\ post t = BinaryExpr a op' b).
Proof.
  unfold post.
  destruct (doubleNegation t) as [r|] eqn:E1.
  { apply doubleNegation_Some in E1 as (x1 & x2 & -> & ? & ->). right; left. eauto. }
  destruct (negatedEquals t) as [r|] eqn:E2.
  { apply negatedEquals_Some in E2 as (a & b & -> & ->). right; right; left. eauto. }
  destruct (invertComparison t) as [r|] eqn:E3.
  { apply invertComparison_Some in E3 as (x & a & op & op' & b & -> & ? & ? & ->).
    right; right; right. eauto 10. }
  by left.
Qed.

Lemma nodes_Unparen (x : Expr) : nodes (Unparen x) <= nodes x.
Proof. induction x using Expr_ind; simpl; lia. Qed.

Lemma negations_Unparen (x : Expr) : negations (Unparen x) = negations x.
Proof. induction x using Expr_ind; simpl; lia. Qed.

Lemma leaves_Unparen (x : Expr) : leaves (Unparen x) = leaves x.
Proof. induction x using Expr_ind; simpl; auto. Qed.

Lemma isSafe_Unparen (x : Expr) : dupSubExpr.isSafe (Unparen x) = dupSubExpr.isSafe x.
Proof. induction x using Expr_ind; simpl; auto. Qed.

Ltac post_by_cases t :=
  destruct (post_cases t) as
    [(-> & _)|[(?x1 & ?x2 & -> & ?E & ->)|[(?a & ?b & -> & ->)|
     (?x & ?a & ?op & ?op' & ?b & -> & ?E & _ & ->)]]]; [done| | |].

Lemma nodes_post (t : Expr) :
  nodes (post t) <= nodes t /\ (nodes (post t) = nodes t -> post t = t).
Proof.
  post_by_cases t.
  - pose proof (nodes_Unparen x1) as H1. pose proof (nodes_Unparen x2) as H2.
    rewrite E in H1. simpl in *. lia.
  - simpl. lia.
  - pose proof (nodes_Unparen x) as H1. rewrite E in H1. simpl in *. lia.
Qed.

Lemma negations_post (t : Expr) :
  negations (post t) <= negations t /\
  (negations (post t) = negations t -> post t = t).
Proof.
  post_by_cases t.
  - pose proof (negations_Unparen x1) as H1. pose proof (negations_Unparen x2) as H2.
    rewrite E in H1. simpl in *. lia.
  - simpl. lia.
  - pose proof (negations_Unparen x) as H1. rewrite E in H1. simpl in *. lia.
Qed.

Lemma leaves_post (t : Expr) : leaves (post t) = leaves t.
Proof.
  post_by_cases t.
  - rewrite leaves_Unparen. simpl. by rewrite <- (leaves_Unparen x1), E.
  - done.
  - simpl. by rewrite <- (leaves_Unparen x), E.
Qed.

Lemma isSafe_post (t : Expr) : dupSubExpr.isSafe (post t) = dupSubExpr.isSafe t.
Proof.
  post_by_cases t.
  - rewrite isSafe_Unparen. simpl. by rewrite <- (isSafe_Unparen x1), E.
  - done.
  - simpl. by rewrite <- (isSafe_Unparen x), E.
Qed.

(** A pass does not add nodes, and one that keeps their number has
    changed nothing. *)
Lemma simplifyBool_nodes (t : Expr) :
  nodes (simplifyBool t) <= nodes t /\
  (nodes (simplifyBool t) = nodes t -> simplifyBool t = t).
Proof.
  induction t using Expr_ind; cbn [simplifyBool];
    match goal with
    | |- context [post ?n] => pose proof (nodes_post n) as [Hle Heq]
    end; cbn [nodes] in *;
    try (destruct IHt as [L1 E1]); try (destruct IHt1 as [L1 E1]);
    try (destruct IHt2 as [L2 E2]);
    try (split; [lia|]; intros Hn;
         rewrite Heq by lia; rewrite ?E1, ?E2 by lia; reflexivity).
  assert (foldr (fun a => Nat.add (nodes a)) 0 (map simplifyBool args) <=
          foldr (fun a => Nat.add (nodes a)) 0 args /\
          (foldr (fun a => Nat.add (nodes a)) 0 (map simplifyBool args) =
           foldr (fun a => Nat.add (nodes a)) 0 args ->
           map simplifyBool args = args)) as [L2 E2].
  { clear -H. induction H as [|a args [La Ea] _ [IHl IHe]]; simpl; [done|].
    split; [lia|]. intros Hn. rewrite Ea, IHe by lia. reflexivity. }
  split; [lia|]. intros Hn. rewrite Heq by lia. rewrite E1, E2 by lia. reflexivity.
Qed.

(** The same for the logical-not operators. *)
Lemma simplifyBool_negations (t : Expr) :
  negations (simplifyBool t) <= negations t /\
  (negations (simplifyBool t) = negations t -> simplifyBool t = t).
Proof.
  induction t using Expr_ind; cbn [simplifyBool];
    match goal with
    | |- context [post ?n] => pose proof (negations_post n) as [Hle Heq]
    end; cbn [negations] in *;
    try (destruct IHt as [L1 E1]); try (destruct IHt1 as [L1 E1]);
    try (destruct IHt2 as [L2 E2]);
    try (split; [lia|]; intros Hn;
         rewrite Heq by lia; rewrite ?E1, ?E2 by lia; reflexivity).
  assert (foldr (fun a => Nat.add (negations a)) 0 (map simplifyBool args) <=
          foldr (fun a => Nat.add (negations a)) 0 args /\
          (foldr (fun a => Nat.add (negations a)) 0 (map simplifyBool args) =
           foldr (fun a => Nat.add (negations a)) 0 args ->
           map simplifyBool args = args)) as [L2 E2].
  { clear -H. induction H as [|a args [La Ea] _ [IHl IHe]]; simpl; [done|].
    split; [lia|]. intros Hn. rewrite Ea, IHe by lia. reflexivity. }
  split; [lia|]. intros Hn. rewrite Heq by lia. rewrite E1, E2 by lia. reflexivity.
Qed.

(** One pass either returns the tree it was given, or a tree with
    strictly fewer nodes and strictly fewer logical-not operators: a
    suggestion is never larger than the expression it is made for. *)
Theorem simplifyBool_shrinks (t : Expr) :
  simplifyBool t = t \/
  (nodes (simplifyBool t) < nodes t /\ negations (simplifyBool t) < negations t).
Proof.
  destruct (simplifyBool_nodes t) as [Hle Heq].
  destruct (simplifyBool_negations t) as [Hle' Heq'].
  destruct (decide (nodes (simplifyBool t) = nodes t)) as [|Hn]; [left; auto|].
  destruct (decide (negations (simplifyBool t) = negations t)) as [E|Hm].
  - left; auto.
  - right. lia.
Qed.

(** Passes repeated on their own result reach a tree that one more pass
    leaves unchanged after at most as many passes as the expression has
    logical-not operators. *)
Theorem simplifyBool_fixed_point (t : Expr) :
  simplifyBool (Nat.iter (negations t) simplifyBool t) =
  Nat.iter (negations t) simplifyBool t.
Proof.
  assert (forall n t, negations t <= n ->
            simplifyBool (Nat.iter n simplifyBool t) = Nat.iter n simplifyBool t) as Hn.
  { clear t. induction n as [|n IH]; intros t Ht;
      destruct (simplifyBool_negations t) as [Hle Heq].
    - simpl. apply Heq. lia.
    - destruct (decide (negations (simplifyBool t) = negations t)) as [E|E].
      + specialize (Heq E). clear -Heq.
        assert (forall k, Nat.iter k simplifyBool t = t) as ->; [|done].
        induction k as [|k IHk]; simpl; [done|]. by rewrite IHk.
      + rewrite Nat.iter_succ_r. apply IH. lia. }
  by apply Hn.
Qed.

(** One pass keeps the identifiers and literals of the expression, each
    of them once and in the same order: no operand is dropped, duplicated
    or moved. *)
Theorem simplifyBool_leaves (t : Expr) : leaves (simplifyBool t) = leaves t.
Proof.
  induction t using Expr_ind; cbn [simplifyBool]; rewrite leaves_post; cbn [leaves];
    rewrite ?IHt, ?IHt1, ?IHt2; try done.
  f_equal. induction H as [|a args Ha _ IH]; simpl; [done|]. by rewrite Ha, IH.
Qed.

(** One pass does not change what [isSafe] of the dupSubExpr checker
    answers: the suggestion is whitelisted exactly when the original is. *)
Theorem simplifyBool_isSafe (t : Expr) :
  dupSubExpr.isSafe (simplifyBool t) = dupSubExpr.isSafe t.
Proof.
  induction t using Expr_ind; cbn [simplifyBool]; rewrite isSafe_post;
    cbn [dupSubExpr.isSafe]; rewrite ?IHt, ?IHt1, ?IHt2; done.
Qed.

(** ** The order of the rules *)

Lemma rules_exclusive (t : Expr) :
  (doubleNegation t = None /\ negatedEquals t = None) \/
  (doubleNegation t = None /\ invertComparison t = None) \/
  (negatedEquals t = None /\ invertComparison t = None).
Proof.
  destruct (doubleNegation t) as [r1|] eqn:E1.
  - right; right.
    apply doubleNegation_Some in E1 as (x1 & x2 & -> & E & ->). split; [done|].
    apply invertComparison_None_other. intros a op b. by rewrite E.
  - destruct (negatedEquals t) as [r2|] eqn:E2; [|by left].
    right; left. split; [done|].
    by apply negatedEquals_Some in E2 as (a & b & -> & ->).
Qed.

Lemma first_fired_None (rules : list (Expr -> option Expr)) (t : Expr) :
  Forall (fun rule => rule t = None) rules -> first_fired rules t = t.
Proof.
  unfold first_fired. induction 1 as [|rule rules Hr _ IH]; simpl; [done|].
  by rewrite Hr.
Qed.

Lemma first_fired_Some (rules : list (Expr -> option Expr)) (t r : Expr) :
  Forall (fun rule => rule t = None \/ rule t = Some r) rules ->
  Exists (fun rule => rule t = Some r) rules ->
  first_fired rules t = r.
Proof.
  unfold first_fired. induction 1 as [|rule rules Hr _ IH]; intros Hex.
  - by apply Exists_nil in Hex.
  - simpl. destruct Hr as [Hr|Hr]; rewrite Hr; [|done].
    apply IH. apply Exists_cons in Hex as [Hex|Hex]; [congruence|done].
Qed.

(** At a node at most one of the three rules can fire, so the order in
    which [post] chains them does not matter: tried in any order, the
    three rules leave what [post] leaves. *)
Theorem post_any_order (rules : list (Expr -> option Expr)) (t : Expr) :
  rules ≡ₚ [doubleNegation; negatedEquals; invertComparison] ->
  first_fired rules t = post t.
Proof.
  intros Hp. unfold post.
  assert (forall r, (doubleNegation t = None \/ doubleNegation t = Some r) ->
                    (negatedEquals t = None \/ negatedEquals t = Some r) ->
                    (invertComparison t = None \/ invertComparison t = Some r) ->
                    (doubleNegation t = Some r \/ negatedEquals t = Some r \/
                     invertComparison t = Some r) ->
                    first_fired rules t = r) as Hsome.
  { intros r H1 H2 H3 Hex. apply first_fired_Some; rewrite Hp.
    - repeat (constructor; [assumption|]). constructor.
    - destruct Hex as [?|[?|?]];
        [ by apply Exists_cons_hd
        | by apply Exists_cons_tl, Exists_cons_hd
        | by do 2 apply Exists_cons_tl; apply Exists_cons_hd ]. }
  assert (doubleNegation t = None -> negatedEquals t = None ->
          invertComparison t = None -> first_fired rules t = t) as Hnone.
  { intros H1 H2 H3. apply first_fired_None. rewrite Hp.
    repeat (constructor; [assumption|]). constructor. }
  destruct (rules_exclusive t) as [[E1 E2]|[[E1 E3]|[E2 E3]]].
  - rewrite E1, E2. destruct (invertComparison t) as [r|] eqn:E3; auto 6.
  - rewrite E1, E3. destruct (negatedEquals t) as [r|] eqn:E2; auto 6.
  - destruct (doubleNegation t) as [r|] eqn:E1; [auto 6|].
    rewrite E2, E3. auto.
Qed.

Lemma post_any_order_witness :
  first_fired [invertComparison; negatedEquals; doubleNegation] example_tree =
  post example_tree.
Proof.
  apply (post_any_order [invertComparison; negatedEquals; doubleNegation]
           example_tree).
  exact (reverse_Permutation [doubleNegation; negatedEquals; invertComparison]).
Defined.

(** One pass is not always enough.  When [!a] and [!b] are left as they
    are by a pass, a pass over [!(!a != !b)], with any number of
    parentheses around the comparison, yields [!a == !b]:
    [invertComparison] builds at the root the shape of [negatedEquals],
    whose turn at that node is over.  A second pass yields [a == b]. *)
Theorem simplifyBool_second_pass (a b : Expr) (n : nat) :
  simplifyBool (UnaryExpr NOT a) = UnaryExpr NOT a ->
  simplifyBool (UnaryExpr NOT b) = UnaryExpr NOT b ->
  let t := UnaryExpr NOT
             (parens n (BinaryExpr (UnaryExpr NOT a) NEQ (UnaryExpr NOT b))) in
  simplifyBool t = BinaryExpr (UnaryExpr NOT a) EQL (UnaryExpr NOT b) /\
  simplifyBool (simplifyBool t) = BinaryExpr a EQL b.
Proof.
  intros Ha Hb t. subst t.
  assert (simplifyBool (UnaryExpr NOT
            (parens n (BinaryExpr (UnaryExpr NOT a) NEQ (UnaryExpr NOT b)))) =
          BinaryExpr (UnaryExpr NOT a) EQL (UnaryExpr NOT b)) as ->.
  { rewrite simplifyBool_UnaryExpr, simplifyBool_parens, simplifyBool_BinaryExpr.
    rewrite Ha, Hb.
    change (post (BinaryExpr (UnaryExpr NOT a) NEQ (UnaryExpr NOT b)))
      with (BinaryExpr (UnaryExpr NOT a) NEQ (UnaryExpr NOT b)).
    by rewrite (post_not_comparison _ (UnaryExpr NOT a) (UnaryExpr NOT b) NEQ)
      by apply Unparen_parens. }
  split; [done|]. by rewrite simplifyBool_BinaryExpr, Ha, Hb.
Qed.

Lemma simplifyBool_second_pass_witness :
  simplifyBool example_tree =
    BinaryExpr (UnaryExpr NOT (Ident "a")) EQL (UnaryExpr NOT (Ident "b")) /\
  simplifyBool (simplifyBool example_tree) = BinaryExpr (Ident "a") EQL (Ident "b").
Proof.
  exact (simplifyBool_second_pass (Ident "a") (Ident "b") 1 eq_refl eq_refl).
Defined.

End Pass.

(* ===================================================================== *)
(** * The meaning of a suggestion                                         *)
(* ===================================================================== *)

Section MeaningPreserved.

Import boolExprSimplify Meaning.

Context {A : Type} (I : Interp A).

Lemma eval_Unparen (x : Expr) : eval I (Unparen x) = eval I x.
Proof. induction x using Expr_ind; simpl; auto. Qed.

Lemma eval_not (x : Expr) (v : value A) :
  eval I (UnaryExpr NOT x) = Some v ->
  exists b, eval I x = Some (VBool b) /\ v = VBool (negb b).
Proof.
  simpl. destruct (eval I x) as [[b|a]|]; simpl; [|done..].
  intros [= <-]. eauto.
Qed.

Lemma eval_comparison (a b : Expr) (op op' : Token) :
  inverted op = Some op' ->
  eval I (BinaryExpr a op b) =
  v ← eval I a; w ← eval I b; VBool <$> compare I op v w.
Proof. intros Hi. simpl. rewrite Hi. by destruct op. Qed.

Hypothesis laws : total_order I.

Lemma eval_post (t : Expr) (v : value A) :
  eval I t = Some v -> eval I (post t) = Some v.
Proof.
  destruct laws as [Hinv Hbool].
  destruct (post_cases t) as
    [(-> & _)|[(x1 & x2 & -> & E & ->)|[(a & b & -> & ->)|
     (x & a & op & op' & b & -> & E & Hi & ->)]]]; [done| | |].
  - intros (b1 & H1 & ->)%eval_not.
    rewrite <- eval_Unparen, E in H1. apply eval_not in H1 as (b2 & H2 & [= ->]).
    by rewrite eval_Unparen, H2, negb_involutive.
  - rewrite !(eval_comparison _ _ EQL NEQ) by done.
    destruct (eval I (UnaryExpr NOT a)) as [va|] eqn:Ea; [|done].
    destruct (eval I (UnaryExpr NOT b)) as [vb|] eqn:Eb; [|done].
    apply eval_not in Ea as (ba & -> & ->). apply eval_not in Eb as (bb & -> & ->).
    simpl. rewrite !Hbool. simpl. intros [= <-]. by destruct ba, bb.
  - intros (b1 & H1 & ->)%eval_not.
    rewrite <- eval_Unparen, E, (eval_comparison _ _ op op') in H1 by done.
    rewrite (eval_comparison _ _ op' op) by (by apply inverted_involutive).
    destruct (eval I a) as [va|]; [|done]. destruct (eval I b) as [vb|]; [|done].
    simpl in *. rewrite (Hinv op op') by done.
    destruct (compare I op va vb); simpl in *; congruence.
Qed.

(** Where the comparisons are those of a total order, a suggestion means
    what the original means: when the expression has a value, the result
    of one pass has the same value. *)
Theorem simplifyBool_preserves_meaning (t : Expr) (v : value A) :
  eval I t = Some v -> eval I (simplifyBool t) = Some v.
Proof.
  revert v.
  induction t using Expr_ind; intros r Hr; cbn [simplifyBool]; apply eval_post;
    try done; cbn [eval] in *.
  - by apply IHt.
  - destruct (eval I t) as [v1|]; [|done]. by rewrite (IHt _ eq_refl).
  - destruct (eval I t1) as [v1|]; [|done]. rewrite (IHt1 _ eq_refl).
    destruct (eval I t2) as [v2|]; [|done]. by rewrite (IHt2 _ eq_refl).
  - destruct (eval I t) as [v1|]; [|done]. rewrite (IHt _ eq_refl).
    destruct (mapM (eval I) args) as [ws|] eqn:Ews; [|done].
    replace (mapM (eval I) (map simplifyBool args)) with (Some ws); [done|].
    symmetry. apply mapM_Some in Ews. apply mapM_Some.
    clear -H Ews. revert ws Ews.
    induction H as [|a args Ha _ IH]; intros ws Hws; invert Hws; simpl;
      constructor; auto.
  - destruct (eval I t) as [v1|]; [|done]. by rewrite (IHt _ eq_refl).
  - destruct (eval I t) as [v1|]; [|done]. by rewrite (IHt _ eq_refl).
  - destruct (eval I t1) as [v1|]; [|by destruct op].
    rewrite (IHt1 _ eq_refl).
    destruct (eval I t2) as [v2|]; [by rewrite (IHt2 _ eq_refl)|].
    destruct op; try done; by destruct v1 as [[]|].
Qed.

End MeaningPreserved.

Section MeaningExamples.

Import boolExprSimplify Meaning.

Lemma integers_total_order (env : string -> option (value Z)) :
  total_order (integers env).
Proof.
  split.
  - intros op op' [x|a] [y|b] Hi; destruct op; simpl in Hi; try discriminate;
      injection Hi as <-; simpl; try done; f_equal;
      try (by rewrite ?negb_involutive);
      unfold Z.geb, Z.gtb, Z.leb, Z.ltb; by destruct (a ?= b)%Z.
  - done.
Qed.

Lemma simplifyBool_preserves_meaning_witness :
  eval (integers example_env)
    (simplifyBool
       (UnaryExpr NOT (ParenExpr (BinaryExpr (Ident "elapsed") GEQ (Ident "min"))))) =
  Some (VBool true).
Proof.
  apply (simplifyBool_preserves_meaning (integers example_env)
           (integers_total_order example_env)
           (UnaryExpr NOT (ParenExpr (BinaryExpr (Ident "elapsed") GEQ (Ident "min"))))).
  reflexivity.
Defined.

(** [invertComparison] asks nothing about the operands.  Where a
    comparison and the one it is exchanged with decide alike on the two
    operands, the node and what the rule leaves in its place have
    opposite values; so it is for [!(x < y)] and [x >= y] when an operand
    is a NaN, both comparisons being false. *)
Theorem invertComparison_unordered {A : Type} (I : Interp A)
    (p x y : Expr) (op op' : Token) (a b : value A) (c : bool) :
  Unparen p = BinaryExpr x op y ->
  inverted op = Some op' ->
  eval I x = Some a -> eval I y = Some b ->
  compare I op a b = Some c -> compare I op' a b = Some c ->
  invertComparison (UnaryExpr NOT p) = Some (BinaryExpr x op' y) /\
  post (UnaryExpr NOT p) = BinaryExpr x op' y /\
  eval I (UnaryExpr NOT p) = Some (VBool (negb c)) /\
  eval I (post (UnaryExpr NOT p)) = Some (VBool c).
Proof.
  intros E Hi Hx Hy Hc Hc'.
  rewrite (invertComparison_not p x y op E), Hi. split; [done|].
  rewrite (post_not_comparison p x y op E), Hi. split; [done|]. split.
  - cbn [eval]. rewrite <- eval_Unparen, E, (eval_comparison I x y op op' Hi).
    rewrite Hx, Hy. simpl. by rewrite Hc.
  - rewrite (eval_comparison I x y op' op) by (by apply inverted_involutive).
    rewrite Hx, Hy. simpl. by rewrite Hc'.
Qed.

Lemma invertComparison_unordered_witness :
  invertComparison
    (UnaryExpr NOT (ParenExpr (BinaryExpr (Ident "x") LSS (Ident "y")))) =
    Some (BinaryExpr (Ident "x") GEQ (Ident "y")) /\
  post (UnaryExpr NOT (ParenExpr (BinaryExpr (Ident "x") LSS (Ident "y")))) =
    BinaryExpr (Ident "x") GEQ (Ident "y") /\
  eval (unordered example_nan)
    (UnaryExpr NOT (ParenExpr (BinaryExpr (Ident "x") LSS (Ident "y")))) =
    Some (VBool true) /\
  eval (unordered example_nan)
    (post (UnaryExpr NOT (ParenExpr (BinaryExpr (Ident "x") LSS (Ident "y"))))) =
    Some (VBool false).
Proof.
  exact (invertComparison_unordered (unordered example_nan)
           (ParenExpr (BinaryExpr (Ident "x") LSS (Ident "y")))
           (Ident "x") (Ident "y") LSS GEQ (VOther tt) (VOther tt) false
           eq_refl eq_refl eq_refl eq_refl eq_refl eq_refl).
Defined.

End MeaningExamples.

(* ===================================================================== *)
(** * What the dupSubExpr checker flags                                   *)
(* ===================================================================== *)

Section Flagged.

Import dupSubExpr.

Lemma isSafe_all_nodes (e : Expr) :
  isSafe e = forallb whitelisted (all_nodes e).
Proof.
  induction e using Expr_ind; cbn [isSafe all_nodes forallb whitelisted];
    rewrite ?forallb_app, ?IHe, ?IHe1, ?IHe2; try done.
Qed.

(** Whatever the two operator maps hold, a warning of [VisitExpr] is the
    only one of the call and is about the visited node; that node is a
    binary node with two identical operands, its operator has [true] in
    [opSet], and no node of it, at any depth, is a call, a dereference or
    a channel receive. *)
Theorem flagged_is_safe_duplicate (TypeOf : Expr -> option GoType)
    (c : dupSubExprChecker) (e : Expr) (w : Warning) :
  w ∈ VisitExpr TypeOf c e ->
  VisitExpr TypeOf c e = [w] /\
  warn_node w = e /\
  exists x op,
    e = BinaryExpr x op x /\
    warn_args w = [ArgToken op] /\
    map_get (opSet c) op = true /\
    Forall (fun s => whitelisted s = true) (all_nodes e).
Proof.
  destruct e as [| | | | | | | |x op y]; simpl; try (by intros ?%elem_of_nil).
  unfold checkBinaryExpr.
  destruct (map_get (opSet c) op) eqn:Hop; simpl; [|by intros ?%elem_of_nil].
  destruct (resultIsFloat TypeOf x && map_get (floatOpsSet c) op);
    [by intros ?%elem_of_nil|].
  destruct (isSafe x && isSafe y) eqn:Hs; simpl; [|by intros ?%elem_of_nil].
  destruct (astequal_Expr x y) eqn:He; [|by intros ?%elem_of_nil].
  apply astequal_Expr_eq in He as <-.
  unfold warn. intros ->%list_elem_of_singleton. simpl.
  split; [done|]. split; [done|]. exists x, op.
  split; [done|]. split; [done|]. split; [done|].
  apply Forall_forall. intros s Hin.
  pose proof (isSafe_all_nodes (BinaryExpr x op x)) as Hall.
  cbn [isSafe] in Hall. rewrite Hs in Hall. symmetry in Hall.
  rewrite forallb_forall in Hall. apply Hall. by apply list_elem_of_In.
Qed.

Lemma flagged_is_safe_duplicate_witness :
  VisitExpr (fun _ => None) Init
    (BinaryExpr (SelectorExpr (Ident "a") "v") LSS (SelectorExpr (Ident "a") "v")) =
  [ mkWarning
      (BinaryExpr (SelectorExpr (Ident "a") "v") LSS (SelectorExpr (Ident "a") "v"))
      "suspicious identical LHS and RHS for `%s` operator" [ArgToken LSS] ].
Proof.
  apply (flagged_is_safe_duplicate (fun _ => None) Init
           (BinaryExpr (SelectorExpr (Ident "a") "v") LSS
              (SelectorExpr (Ident "a") "v"))).
  apply list_elem_of_here.
Defined.

End Flagged.

(* ===================================================================== *)
(** * The store: a second visit, and what the callback writes             *)
(* ===================================================================== *)

Lemma example_operand_at :
  tree_at example_store 5%nat example_operand example_operand_footprint.
Proof.
  unfold example_store, example_operand, example_operand_footprint.
  repeat (econstructor; try reflexivity); by_decide.
Defined.

Section Cells.

Local Open Scope nat_scope.

Implicit Types (h : list Mem.cell) (l n p : Mem.loc) (t : Expr) (fp : gset Mem.loc).

(** [VisitExpr] does not look at [cause].  Called again on a node it has
    just warned about, and for which [EnterChilds] answers [false], it
    warns again, with a suggestion built anew in other cells. *)
Theorem VisitExpr_again (c : Mem.boolExprSimplifyChecker) h x t fp :
  tree_at h x t fp ->
  boolExprSimplify.simplifyBool t <> t ->
  exists c1 h1 c2 h2 y1 y2,
    Mem.VisitExpr c x h = Some (c1, h1) /\
    Mem.EnterChilds c1 x = false /\
    Mem.VisitExpr c1 x h1 = Some (c2, h2) /\
    Mem.reports c2 =
      Mem.reports c ++ [Mem.mkReport x "can simplify `%s` to `%s`" [x; y1];
                        Mem.mkReport x "can simplify `%s` to `%s`" [x; y2]] /\
    y1 <> y2.
Proof.
  intros Ht Hne.
  assert (astequal_Expr t (boolExprSimplify.simplifyBool t) = false) as Hd.
  { destruct (astequal_Expr t (boolExprSimplify.simplifyBool t)) eqn:E; [|done].
    apply astequal_Expr_eq in E. by destruct Hne. }
  destruct (VisitExpr_store c h x t fp Ht) as
    (c1 & h1 & Hrun1 & He1 & y1 & fy1 & Hy1 & Hr1 & ->).
  pose proof (tree_at_extends h h1 x t fp He1 Ht) as Ht1.
  destruct (VisitExpr_store (Mem.warn c x y1) h1 x t fp Ht1) as
    (c2 & h2 & Hrun2 & He2 & y2 & fy2 & Hy2 & Hr2 & ->).
  rewrite Hd in *.
  exists (Mem.warn c x y1), h1, (Mem.warn (Mem.warn c x y1) x y2), h2, y1, y2.
  split; [done|]. split.
  { unfold Mem.EnterChilds. simpl. by rewrite bool_decide_eq_true_2. }
  split; [done|]. split.
  { simpl. by rewrite <- app_assoc. }
  pose proof (tree_at_root _ _ _ _ Hy1) as R1.
  pose proof (tree_at_dom _ _ _ _ _ Hy1 R1) as D1.
  pose proof (Hr2 _ (tree_at_root _ _ _ _ Hy2)) as D2. lia.
Qed.

Lemma VisitExpr_again_witness :
  exists c1 h1 c2 h2 y1 y2,
    Mem.VisitExpr Mem.Init 6 example_store = Some (c1, h1) /\
    Mem.EnterChilds c1 6 = false /\
    Mem.VisitExpr c1 6 h1 = Some (c2, h2) /\
    Mem.reports c2 =
      Mem.reports Mem.Init ++
        [Mem.mkReport 6 "can simplify `%s` to `%s`" [6; y1];
         Mem.mkReport 6 "can simplify `%s` to `%s`" [6; y2]] /\
    y1 <> y2.
Proof.
  apply (VisitExpr_again Mem.Init example_store 6 example_tree example_footprint
           example_tree_at).
  vm_compute. discriminate.
Defined.

(** The callback of [simplifyBool] never stops the walk and writes only
    when a rule fires.  On a well-formed node it returns [true], the
    store keeps its length, and when none of the three rules fires the
    store is left exactly as it was. *)
Theorem post_never_aborts h parent name n t fp :
  tree_at h n t fp -> slot h parent name n -> parent ∉ fp ->
  exists h',
    Mem.post (Mem.mkCursor parent name n) h = Some (true, h') /\
    length h' = length h /\
    (boolExprSimplify.doubleNegation t = None ->
     boolExprSimplify.negatedEquals t = None ->
     boolExprSimplify.invertComparison t = None -> h' = h).
Proof.
  intros Ht Hslot Hp.
  cut (wp (Mem.post (Mem.mkCursor parent name n)) h
         (fun b h' => b = true /\ length h' = length h /\
            (boolExprSimplify.doubleNegation t = None ->
             boolExprSimplify.negatedEquals t = None ->
             boolExprSimplify.invertComparison t = None -> h' = h))).
  { intros (b & h' & Hrun & -> & L & Hsame). exists h'. auto. }
  unfold Mem.post.
  apply wp_bind. eapply wp_mono; [by apply doubleNegation_store|].
  intros b1 h1 H1. unfold rule_result in H1.
  destruct (boolExprSimplify.doubleNegation t) as [r|];
    destruct H1 as [-> H1]; [apply wp_ret; split; [done|]; split; [apply H1|done]|].
  subst h1.
  apply wp_bind. eapply wp_mono; [by apply negatedEquals_store|].
  intros b2 h2 H2. unfold rule_result in H2.
  destruct (boolExprSimplify.negatedEquals t) as [r|];
    destruct H2 as [-> H2]; [apply wp_ret; split; [done|]; split; [apply H2|done]|].
  subst h2.
  apply wp_bind. eapply wp_mono; [by apply invertComparison_store|].
  intros b3 h3 H3. unfold rule_result in H3.
  destruct (boolExprSimplify.invertComparison t) as [r|];
    destruct H3 as [-> H3]; [apply wp_ret; split; [done|]; split; [apply H3|done]|].
  subst h3. by apply wp_ret.
Qed.

Lemma post_never_aborts_witness :
  exists h',
    Mem.post (Mem.mkCursor 6 Mem.FX 5) example_store = Some (true, h') /\
    length h' = length example_store /\
    (boolExprSimplify.doubleNegation example_operand = None ->
     boolExprSimplify.negatedEquals example_operand = None ->
     boolExprSimplify.invertComparison example_operand = None ->
     h' = example_store).
Proof.
  apply (post_never_aborts example_store 6 Mem.FX 5 example_operand
           example_operand_footprint example_operand_at).
  - exists (Mem.CUnaryExpr NOT 5). split; reflexivity.
  - by_decide.
Defined.

End Cells.
